(** * henhouse: the bucket engine of [db/timeline.cpp]

    A shallow embedding of the timeline of henhouse (namespace [henhouse::db])
    and the properties of its [put], [get], [diff] and [summary].

    - [time_type], [count_type] and [offset_type] are unsigned 64-bit
      integers: values of [N] with the wrap-around of each operation written
      out ([add64], [sub64], [mul64]).
    - [mean_type] is an IEEE 754 binary64, Rocq's primitive [float].
    - The two mapped vectors are lists; [data[i]] is the list lookup and an
      index out of range aborts.
    - A failed [REQUIRE_*], [CHECK_*] or [ENSURE_*] aborts the process: every
      operation returns an [option], and [None] is the abort. *)

From Stdlib Require Import Floats.PrimFloat Numbers.Cyclic.Int63.Uint63.
From stdpp Require Import base numbers option list.

#[local] Open Scope N_scope.

(** ** Machine integers *)

(** Modelled from the spec: the declarations of [time_type], [count_type] and
    [offset_type]; the records of the index file and of the data file are
    made of u64 fields (section 6). *)
Definition u64_modulus : N := 2 ^ 64.

Definition wrap (x : N) : N := x mod u64_modulus.

Definition add64 (a b : N) : N := wrap (a + b).

Definition mul64 (a b : N) : N := wrap (a * b).

Definition sub64 (a b : N) : N :=
  Z.to_N ((Z.of_N a - Z.of_N b) mod Z.of_N u64_modulus).

(** Modelled from the spec: [mean_type], a double. The conversion of a u64 to
    a double rounds to nearest: below 2^63 it is the primitive conversion,
    above the low bit is kept as a sticky bit while halving. *)
Definition to_double (x : N) : float :=
  if x <? 2 ^ 63 then PrimFloat.of_uint63 (Uint63.of_Z (Z.of_N x))
  else
    let halved := N.lor (N.shiftr x 1) (N.land x 1) in
    PrimFloat.mul (PrimFloat.of_uint63 (Uint63.of_Z (Z.of_N halved))) 2%float.

(** Modelled from the spec: the contract macros [REQUIRE_*], [CHECK_*] and
    [ENSURE_*]; a violated contract is fatal. *)
Definition check (b : bool) : option unit := if b then Some tt else None.

(** ** Records *)

(** The fields keep their names; where two records of the source share a
    field name, the fields of the result records carry a prefix. *)

Record data_item := mk_data_item {
  value : N;
  integral : N;
  second_integral : N
}.

Record index_item := mk_index_item {
  time : N;
  pos : N
}.

Record pos_result := mk_pos_result {
  p_index_offset : N;
  p_time : N;
  p_pos : N;
  p_offset : N
}.

Record get_result := mk_get_result {
  g_index_offset : N;
  query_time : N;
  range_time : N;
  g_pos : N;
  g_offset : N;
  g_value : data_item
}.

Record diff_result := mk_diff_result {
  dr_from : N;
  dr_to : N;
  dr_resolution : N;
  dr_index_offset : N;
  dr_sum : N;
  dr_mean : float;
  dr_variance : float;
  dr_n : N;
  dr_a : data_item;
  dr_b : data_item
}.

Record summary_result := mk_summary_result {
  sr_from : N;
  sr_to : N;
  sr_resolution : N;
  sr_sum : N;
  sr_mean : float;
  sr_variance : float;
  sr_n : N
}.

(** [resolution] is [index.meta().resolution]. *)
Record timeline := mk_timeline {
  index : list index_item;
  data : list data_item;
  resolution : N
}.

Definition zero_item : data_item := mk_data_item 0 0 0.

Definition empty_timeline (res : N) : timeline := mk_timeline [] [] res.

(** ** The mapped vectors *)

(** [size()]. *)
Definition vsize {A} (v : list A) : N := N.of_nat (length v).

(** [v[i]], fatal out of range. *)
Definition at_pos {A} (v : list A) (i : N) : option A := v !! N.to_nat i.

Definition push_back {A} (v : list A) (x : A) : list A := v ++ [x].

(** ** The sparse index *)

(** Modelled from the spec: the search of the index (section 4.2), for the
    largest anchor whose time is at most [t]. [last_le l t i best] is the
    position of the last such anchor of [l], counting from [i], and [best]
    when there is none. *)
Fixpoint last_le (l : list index_item) (t : N) (i best : nat) : nat :=
  match l with
  | [] => best
  | a :: l' => last_le l' t (S i) (if time a <=? t then i else best)
  end.

(** Modelled from the spec: [index_type::find_pos_from_range] (section 4.2).
    The iterators [lo] and [hi] are offsets from [begin()]. The largest anchor
    of [lo, hi) whose time is at most [t] is selected, [lo] itself when [t]
    precedes it, in which case the offset is 0. Otherwise the offset is
    [(t - anchor.time) / resolution], kept inside the run of the selected
    anchor when another anchor follows it. *)
Definition find_pos_from_range (idx : list index_item) (res t : N)
    (lo hi : nat) : option pos_result :=
  first ← idx !! lo;
  if t <? time first then
    Some (mk_pos_result (N.of_nat lo) (time first) (pos first) 0)
  else
    let i := last_le (take (hi - lo) (drop lo idx)) t lo lo in
    range ← idx !! i;
    _ ← check (0 <? res);
    let raw := sub64 t (time range) / res in
    let offset :=
      match idx !! S i with
      | Some next => N.min raw (sub64 (sub64 (pos next) (pos range)) 1)
      | None => raw
      end in
    Some (mk_pos_result (N.of_nat i) (time range) (pos range) offset).

(** Modelled from the spec: [index_type::find_pos] (section 4.2). The hint is
    the caller's cursor: it shortens the search and does not change the
    anchor that is found. *)
Definition find_pos (idx : list index_item) (res t : N)
    (index_offset : N) : option pos_result :=
  find_pos_from_range idx res t 0 (length idx).

(** Modelled from the spec: [index_type::push_back] (section 4.2), which
    enforces anchors strictly increasing in both fields. *)
Definition index_push_back (idx : list index_item)
    (a : index_item) : option (list index_item) :=
  match last idx with
  | None => Some (push_back idx a)
  | Some l =>
      _ ← check ((time l <? time a) && (pos l <? pos a));
      Some (push_back idx a)
  end.

(** ** db/timeline.cpp *)

Definition ADD_BUCKET_BACK_LIMIT : N := 60.

Definition propogate (prev current : data_item) : data_item :=
  let v := value current in
  mk_data_item (value current)
    (add64 (integral prev) v)
    (add64 (second_integral prev) (mul64 v v)).

Definition update_current (prev current : data_item) (c : N) : data_item :=
  propogate prev
    (mk_data_item (add64 (value current) c) (integral current)
       (second_integral current)).

Definition diff_buckets (ta tb res index_offset : N) (a b : data_item)
    (n : N) : option diff_result :=
  _ ← check (0 <? res);
  _ ← check (0 <? n);
  let sum := sub64 (integral b) (integral a) in
  let second_sum := sub64 (second_integral b) (second_integral a) in
  let mean := PrimFloat.div (to_double sum) (to_double n) in
  let mean_squared := PrimFloat.mul mean mean in
  let second_mean := PrimFloat.div (to_double second_sum) (to_double n) in
  let variance := PrimFloat.sub second_mean mean_squared in
  Some (mk_diff_result ta tb res index_offset sum mean variance n a b).

(** The loop [for(auto p = pos + 1; p < data.size(); p++)
    propogate(data[p-1], data[p]);] of [put]; [trips] is the number of
    iterations left, [data.size() - p]. *)
Fixpoint propogate_loop (trips p : nat)
    (dat : list data_item) : option (list data_item) :=
  match trips with
  | O => Some dat
  | S trips' =>
      prev ← dat !! (p - 1)%nat;
      current ← dat !! p;
      propogate_loop trips' (S p) (<[p := propogate prev current]> dat)
  end.

Definition put (tl : timeline) (t c : N) : option (bool * timeline) :=
  match last (index tl) with
  | Some last_range =>
      if time last_range <=? t then
        p ← find_pos_from_range (index tl) (resolution tl) t
               (length (index tl) - 1) (length (index tl));
        let pos := add64 (p_pos p) (p_offset p) in
        if pos <? vsize (data tl) then
          if sub64 (vsize (data tl)) pos <? ADD_BUCKET_BACK_LIMIT then
            prev ← (if 0 <? pos then at_pos (data tl) (sub64 pos 1)
                    else Some zero_item);
            current ← at_pos (data tl) pos;
            let updated :=
              <[N.to_nat pos := update_current prev current c]> (data tl) in
            dat ← propogate_loop (length updated - S (N.to_nat pos))
                     (S (N.to_nat pos)) updated;
            Some (true, mk_timeline (index tl) dat (resolution tl))
          else Some (false, tl)
        else
          let last_pos := sub64 (vsize (data tl)) 1 in
          prev ← at_pos (data tl) last_pos;
          let current := propogate prev (mk_data_item c 0 0) in
          let dat := push_back (data tl) current in
          let new_pos := add64 last_pos 1 in
          if pos =? new_pos then
            Some (true, mk_timeline (index tl) dat (resolution tl))
          else
            let res := resolution tl in
            _ ← check (0 <? res);
            let aliased_time := add64 (p_time p) (mul64 (p_offset p) res) in
            let index_entry := mk_index_item aliased_time new_pos in
            _ ← check (aliased_time <=? t);
            idx ← index_push_back (index tl) index_entry;
            Some (true, mk_timeline idx dat res)
      else Some (false, tl)
  | None =>
      _ ← check (vsize (data tl) =? 0);
      let v := mk_data_item c c (mul64 c c) in
      let i := mk_index_item t 0 in
      idx ← index_push_back (index tl) i;
      Some (true, mk_timeline idx (push_back (data tl) v) (resolution tl))
  end.

Definition summary (tl : timeline) : option summary_result :=
  let res := resolution tl in
  _ ← check (0 <? res);
  match head (index tl), last (index tl) with
  | Some front, Some back =>
      _ ← check (negb (vsize (data tl) =? 0));
      let from := time front in
      _ ← check (pos back <? vsize (data tl));
      let last_buckets := sub64 (vsize (data tl)) (pos back) in
      let to := add64 (time back) (mul64 last_buckets res) in
      _ ← check (from <? to);
      let n := sub64 to from / res in
      let first_bucket := zero_item in
      last_bucket ← last (data tl);
      d ← diff_buckets from to res 0 first_bucket last_bucket n;
      Some (mk_summary_result from to res (dr_sum d) (dr_mean d)
              (dr_variance d) n)
  | _, _ => Some (mk_summary_result 0 0 res 0 0 0 0)
  end.

(** [ENSURE_RANGE(v, lo, hi)]: [lo <= v <= hi]. *)
Definition clamp (r : pos_result) (size : N) : option pos_result :=
  _ ← check (p_pos r <? size);
  let pos := add64 (p_pos r) (p_offset r) in
  if pos <? size then Some r
  else
    let r' := mk_pos_result (p_index_offset r) (p_time r) (p_pos r)
                (sub64 (sub64 size (p_pos r)) 1) in
    _ ← check ((0 <=? add64 (p_pos r') (p_offset r'))
               && (add64 (p_pos r') (p_offset r') <=? size));
    Some r'.

Definition get (tl : timeline) (t index_offset : N) : option get_result :=
  p ← find_pos (index tl) (resolution tl) t index_offset;
  p ← clamp p (vsize (data tl));
  let before_beginning := t <? p_time p in
  dat ← (if before_beginning then Some zero_item
         else at_pos (data tl) (add64 (p_pos p) (p_offset p)));
  Some (mk_get_result (p_index_offset p) t (p_time p) (p_pos p)
          (p_offset p) dat).

Definition diff (tl : timeline) (a b index_offset : N) : option diff_result :=
  let res := resolution tl in
  _ ← check (0 <? res);
  let '(a, b) := if b <? a then (b, a) else (a, b) in
  if vsize (data tl) =? 0 then
    Some (mk_diff_result a b res 0 0 0 0 0 zero_item zero_item)
  else
    ar ← get tl a index_offset;
    br ← get tl b index_offset;
    let b := N.max (query_time br) (range_time br) in
    let a := N.min (query_time ar) b in
    let time_diff := sub64 b a in
    let n := time_diff / res in
    if n =? 0 then
      Some (mk_diff_result a b res 0 0 0 0 0 (g_value ar) (g_value br))
    else
      _ ← check (0 <? n);
      _ ← check (g_index_offset ar <=? g_index_offset br);
      diff_buckets a b res (g_index_offset ar) (g_value ar) (g_value br) n.

(** ** Reachable timelines *)

(** The puts that were accepted since [from_directory] made the timeline,
    with arguments that are u64 values and vectors that fit a [std::size_t]. *)
Inductive reachable (res : N) : timeline → Prop :=
  | reach_empty :
      0 < res → res < u64_modulus → reachable res (empty_timeline res)
  | reach_put tl t c tl' :
      reachable res tl →
      t < u64_modulus → c < u64_modulus →
      put tl t c = Some (true, tl') →
      vsize (data tl') < u64_modulus →
      reachable res tl'.

(** The timeline a put leaves when it returned true. *)
Definition accepted (r : option (bool * timeline)) : option timeline :=
  '(ok, tl) ← r; if ok : bool then Some tl else None.

(** The exact sums the cumulative fields stand for. *)
Definition sum_values (l : list data_item) : N :=
  foldr (λ d acc, value d + acc) 0 l.

Definition sum_squares (l : list data_item) : N :=
  foldr (λ d acc, value d * value d + acc) 0 l.

(** Every bucket of [l] is the propagation of its predecessor, [prev] being
    the bucket before the first. *)
Fixpoint cumulative (prev : data_item) (l : list data_item) : Prop :=
  match l with
  | [] => True
  | d :: l' => d = propogate prev d ∧ cumulative d l'
  end.

(** What the loop of [put] leaves behind a rewritten bucket. *)
Fixpoint repropogate (prev : data_item) (l : list data_item) : list data_item :=
  match l with
  | [] => []
  | d :: l' => let d' := propogate prev d in d' :: repropogate d' l'
  end.

(** The fields of a bucket are u64 values. *)
Definition in_range (d : data_item) : Prop :=
  value d < u64_modulus ∧ integral d < u64_modulus
  ∧ second_integral d < u64_modulus.

(** The target bucket [put] resolves [t] to. *)
Definition put_target (tl : timeline) (t : N) : option N :=
  p ← find_pos_from_range (index tl) (resolution tl) t
         (length (index tl) - 1) (length (index tl));
  Some (add64 (p_pos p) (p_offset p)).

(** [t] resolves to the existing bucket [d] at position [pos]. *)
Definition resolves (tl : timeline) (t hint pos : N) (d : data_item) : Prop :=
  ∃ p, find_pos (index tl) (resolution tl) t hint = Some p
       ∧ p_time p ≤ t
       ∧ p_pos p < vsize (data tl)
       ∧ pos = add64 (p_pos p) (p_offset p)
       ∧ at_pos (data tl) pos = Some d.

(** What every reachable timeline satisfies: a positive resolution, vectors
    that are empty together, anchors on existing buckets, cumulative fields
    propagated from bucket to bucket, anchor times on the grid of the first
    anchor. *)
Record wf (tl : timeline) : Prop := mk_wf {
  wf_res : 0 < resolution tl < u64_modulus;
  wf_size : vsize (data tl) < u64_modulus;
  wf_nonempty : index tl = [] ↔ data tl = [];
  wf_anchor : ∀ a, a ∈ index tl →
              pos a < vsize (data tl) ∧ time a < u64_modulus;
  wf_data : Forall in_range (data tl);
  wf_cumulative : cumulative zero_item (data tl);
  wf_aligned : ∀ a0 a, head (index tl) = Some a0 → a ∈ index tl →
               ∃ k, time a = time a0 + k * resolution tl
}.

(** ** The branches of [put] *)

(** The offset and the bucket [put] resolves [t] to, from the last anchor. *)
Definition tail_offset (tl : timeline) (lr : index_item) (t : N) : N :=
  sub64 t (time lr) / resolution tl.

Definition tail_target (tl : timeline) (lr : index_item) (t : N) : N :=
  add64 (pos lr) (tail_offset tl lr t).

(** What [put tl t c] returns, branch by branch: the first point, a time
    before the last anchor, a target outside or inside the backfill window, an
    append right behind the last bucket and an append behind a gap. *)
Inductive put_case (tl : timeline) (t c : N) : bool → timeline → Prop :=
  | case_first :
      index tl = [] → data tl = [] →
      put_case tl t c true
        (mk_timeline [mk_index_item t 0] [mk_data_item c c (mul64 c c)]
           (resolution tl))
  | case_old lr :
      last (index tl) = Some lr → t < time lr →
      put_case tl t c false tl
  | case_far lr :
      last (index tl) = Some lr → time lr ≤ t →
      tail_target tl lr t < vsize (data tl) →
      ADD_BUCKET_BACK_LIMIT ≤ vsize (data tl) - tail_target tl lr t →
      put_case tl t c false tl
  | case_update lr current :
      last (index tl) = Some lr → time lr ≤ t →
      tail_target tl lr t < vsize (data tl) →
      vsize (data tl) - tail_target tl lr t < ADD_BUCKET_BACK_LIMIT →
      at_pos (data tl) (tail_target tl lr t) = Some current →
      put_case tl t c true
        (mk_timeline (index tl)
           (let before := take (N.to_nat (tail_target tl lr t)) (data tl) in
            let prev := default zero_item (last before) in
            let updated := update_current prev current c in
            before ++ updated
              :: repropogate updated
                   (drop (S (N.to_nat (tail_target tl lr t))) (data tl)))
           (resolution tl))
  | case_append lr prev :
      last (index tl) = Some lr → time lr ≤ t →
      tail_target tl lr t = vsize (data tl) →
      last (data tl) = Some prev →
      put_case tl t c true
        (mk_timeline (index tl)
           (data tl ++ [propogate prev (mk_data_item c 0 0)])
           (resolution tl))
  | case_gap lr prev :
      last (index tl) = Some lr → time lr ≤ t →
      vsize (data tl) < tail_target tl lr t →
      last (data tl) = Some prev →
      1 ≤ tail_offset tl lr t →
      time lr + tail_offset tl lr t * resolution tl ≤ t →
      put_case tl t c true
        (mk_timeline
           (index tl
            ++ [mk_index_item (time lr + tail_offset tl lr t * resolution tl)
                  (vsize (data tl))])
           (data tl ++ [propogate prev (mk_data_item c 0 0)])
           (resolution tl)).

(** ** Histories and the order of the anchors *)

(** [history res cs tl]: the timeline [tl] is reached by accepted puts whose
    counts are [cs], the latest first. *)
Inductive history (res : N) : list N → timeline → Prop :=
  | hist_empty :
      0 < res → res < u64_modulus → history res [] (empty_timeline res)
  | hist_put cs tl t c tl' :
      history res cs tl →
      t < u64_modulus → c < u64_modulus →
      put tl t c = Some (true, tl') →
      vsize (data tl') < u64_modulus →
      history res (c :: cs) tl'.

Definition total (cs : list N) : N := foldr N.add 0 cs.

(** Later anchors have later times and later positions. *)
Definition anchors_increasing (idx : list index_item) : Prop :=
  ∀ i j a b, (i < j)%nat → idx !! i = Some a → idx !! j = Some b →
             time a < time b ∧ pos a < pos b.

(** An anchor at position [pos] is at least [pos] resolutions after the
    first anchor: every bucket before it stands for a resolution of time. *)
Definition anchors_spaced (tl : timeline) : Prop :=
  ∀ a0 a, head (index tl) = Some a0 → a ∈ index tl →
          time a0 + pos a * resolution tl ≤ time a.

(** ** Scenarios *)

(** The timeline of scenario 2: [put(100,5)], [put(110,3)], [put(120,2)] at
    resolution 10. *)
Definition three_puts : option timeline :=
  tl ← accepted (put (empty_timeline 10) 100 5);
  tl ← accepted (put tl 110 3);
  accepted (put tl 120 2).

(** Scenario 5 of the specification: [n] contiguous buckets of value 1, one
    put per resolution step from time [t] on. *)
Fixpoint fill (n : nat) (t : N) (tl : timeline) : option timeline :=
  match n with
  | O => Some tl
  | S n' => tl' ← accepted (put tl t 1); fill n' (t + resolution tl) tl'
  end.

Example scenario_first_put :
  put (empty_timeline 10) 100 5
  = Some (true, mk_timeline [mk_index_item 100 0] [mk_data_item 5 5 25] 10).
Proof. vm_compute. reflexivity. Qed.

(** Scenario 3 of the specification: a gap gets an anchor. *)
Example scenario_gap :
  (tl ← accepted (put (empty_timeline 10) 100 5); accepted (put tl 200 7))
  = Some (mk_timeline [mk_index_item 100 0; mk_index_item 200 1]
            [mk_data_item 5 5 25; mk_data_item 7 12 74] 10).
Proof. vm_compute. reflexivity. Qed.

(** Scenario 4 of the specification: an update is propagated forward. *)
Example scenario_backfill :
  (tl ← accepted (put (empty_timeline 10) 100 5);
   tl ← accepted (put tl 110 3); accepted (put tl 100 2))
  = Some (mk_timeline [mk_index_item 100 0]
            [mk_data_item 7 7 49; mk_data_item 3 10 58] 10).
Proof. vm_compute. reflexivity. Qed.

(** Scenario 5 of the specification: with 100 buckets, a put into bucket 0 or
    into bucket 40 (60 behind the size) is rejected, a put into bucket 41
    (59 behind) is accepted. *)
Example scenario_backfill_window :
  (tl ← fill 100 0 (empty_timeline 10);
   Some (vsize (data tl), fst <$> put tl 0 1, fst <$> put tl 400 1,
         fst <$> put tl 410 1))
  = Some (100, Some false, Some false, Some true).
Proof. vm_compute. reflexivity. Qed.

(** ** Machine arithmetic *)

Ltac u64 :=
  unfold add64, mul64, wrap, u64_modulus in *;
  change (2 ^ 64) with 18446744073709551616 in *.

Lemma wrap_small x : x < u64_modulus → wrap x = x.
Proof. u64. intros. by apply N.mod_small. Qed.

Lemma wrap_lt x : wrap x < u64_modulus.
Proof. u64. apply N.mod_lt. lia. Qed.

Lemma wrap_le x : wrap x ≤ x.
Proof. u64. apply N.Div0.mod_le. Qed.

Lemma add64_lt a b : add64 a b < u64_modulus.
Proof. apply wrap_lt. Qed.

Lemma mul64_lt a b : mul64 a b < u64_modulus.
Proof. apply wrap_lt. Qed.

Create HintDb u64.
#[local] Hint Resolve wrap_lt add64_lt mul64_lt : u64.

Lemma add64_exact a b : a + b < u64_modulus → add64 a b = a + b.
Proof. apply wrap_small. Qed.

Lemma mul64_exact a b : a * b < u64_modulus → mul64 a b = a * b.
Proof. apply wrap_small. Qed.

Lemma sub64_exact a b : b ≤ a → a < u64_modulus → sub64 a b = a - b.
Proof.
  unfold sub64, u64_modulus. change (2 ^ 64) with 18446744073709551616.
  intros. rewrite Z.mod_small by lia. lia.
Qed.

Lemma sub64_diag a : sub64 a a = 0.
Proof. unfold sub64. by rewrite Z.sub_diag. Qed.

Lemma sub64_add64 a b : b < u64_modulus → sub64 (add64 a b) a = b.
Proof.
  intros Hb. unfold sub64, add64, wrap.
  rewrite N2Z.inj_mod, Zminus_mod_idemp_l, N2Z.inj_add.
  replace (Z.of_N a + Z.of_N b - Z.of_N a)%Z with (Z.of_N b) by lia.
  rewrite Z.mod_small; lia.
Qed.

Lemma add64_wrap_l a b : add64 (wrap a) b = add64 a b.
Proof. unfold add64, wrap. by rewrite N.Div0.add_mod_idemp_l. Qed.

Lemma add64_wrap_r a b : add64 a (wrap b) = add64 a b.
Proof. unfold add64, wrap. by rewrite N.Div0.add_mod_idemp_r. Qed.

Lemma add64_assoc a b c : add64 (add64 a b) c = add64 a (add64 b c).
Proof.
  unfold add64, wrap.
  by rewrite N.Div0.add_mod_idemp_l, N.Div0.add_mod_idemp_r, N.add_assoc.
Qed.

(** One case split on what a fallible computation in [H] examines next. *)
Ltac split_fallible H :=
  match type of H with
  | context [mbind _ ?x] => destruct x eqn:?; simpl in H; try discriminate H
  | context [match ?x with _ => _ end] =>
      destruct x eqn:?; simpl in H; try discriminate H
  end.

Lemma check_true b : b = true → check b = Some tt.
Proof. by intros ->. Qed.

(** ** Propagation *)

Lemma propogate_in_range prev d : value d < u64_modulus → in_range (propogate prev d).
Proof. intros. repeat split; simpl; auto with u64. Qed.

Lemma repropogate_length prev l : length (repropogate prev l) = length l.
Proof. revert prev. induction l as [|d l IH]; intros prev; simpl; auto. Qed.

Lemma repropogate_cumulative prev l : cumulative prev (repropogate prev l).
Proof. revert prev. induction l as [|d l IH]; intros prev; simpl; auto. Qed.

Lemma repropogate_in_range prev l :
  Forall in_range l → Forall in_range (repropogate prev l).
Proof.
  intros H. revert prev. induction H as [|d l Hd _ IH]; intros prev; simpl.
  - constructor.
  - constructor; [apply propogate_in_range, Hd | apply IH].
Qed.

(** The loop of [put] never reads out of range and rewrites the cumulative
    fields of the buckets behind position [length l1]. *)
Lemma propogate_loop_spec l2 : ∀ l1 d,
  propogate_loop (length l2) (S (length l1)) (l1 ++ d :: l2)
  = Some (l1 ++ d :: repropogate d l2).
Proof.
  induction l2 as [|e l2 IH]; intros l1 d; simpl; [done|].
  rewrite Nat.sub_0_r.
  assert (E : l1 ++ d :: e :: l2 = (l1 ++ [d]) ++ e :: l2)
    by (by rewrite <- app_assoc).
  assert (L : S (length l1) = length (l1 ++ [d]))
    by (rewrite length_app; simpl; lia).
  rewrite (list_lookup_middle l1 (e :: l2) d (length l1)) by done. simpl.
  rewrite E, L.
  rewrite (list_lookup_middle (l1 ++ [d]) l2 e (length (l1 ++ [d]))) by done.
  simpl.
  rewrite insert_app_r_alt by lia. rewrite Nat.sub_diag. simpl.
  rewrite (IH (l1 ++ [d]) (propogate d e)).
  by rewrite <- app_assoc.
Qed.

Lemma cumulative_app prev l1 l2 :
  cumulative prev (l1 ++ l2)
  ↔ cumulative prev l1 ∧ cumulative (default prev (last l1)) l2.
Proof.
  revert prev. induction l1 as [|d l1 IH]; intros prev; simpl.
  - tauto.
  - rewrite IH. destruct l1 as [|e l1]; simpl; [tauto|].
    destruct (last (e :: l1)) eqn:E; simpl; [tauto|].
    by apply last_None in E.
Qed.

Lemma propogate_fix prev e :
  e = propogate prev e →
  integral e = add64 (integral prev) (value e)
  ∧ second_integral e
    = add64 (second_integral prev) (mul64 (value e) (value e)).
Proof.
  intros H. split;
    [apply (f_equal integral) in H | apply (f_equal second_integral) in H];
    exact H.
Qed.

(** The cumulative fields against the exact sums. *)
Lemma cumulative_prefix_sums l : ∀ prev p d,
  cumulative prev l → l !! p = Some d →
  integral d = add64 (integral prev) (sum_values (take (S p) l))
  ∧ second_integral d
    = add64 (second_integral prev) (sum_squares (take (S p) l)).
Proof.
  induction l as [|e l IH]; intros prev p d Hc Hp; [done|].
  destruct Hc as [He Hc]. apply propogate_fix in He as [Hi0 Hs0].
  destruct p as [|p]; simpl in Hp.
  - injection Hp as <-. simpl. rewrite !N.add_0_r.
    split; [done|]. rewrite Hs0. unfold mul64. by rewrite add64_wrap_r.
  - destruct (IH e p d Hc Hp) as [Hi Hs].
    rewrite Hi, Hs, Hi0, Hs0.
    change (take (S (S p)) (e :: l)) with (e :: take (S p) l). simpl.
    unfold mul64. rewrite add64_wrap_r, !add64_assoc.
    rewrite <- (add64_wrap_r _ (value e + _)).
    by rewrite <- (add64_wrap_r _ (value e * value e + _)).
Qed.

(** ** The index lookups *)

Lemma last_le_app_last l a t : ∀ i best,
  time a ≤ t → last_le (l ++ [a]) t i best = (i + length l)%nat.
Proof.
  induction l as [|x l IH]; intros i best Ht; simpl.
  - apply N.leb_le in Ht. rewrite Ht. lia.
  - rewrite IH by done. lia.
Qed.

Lemma last_le_mono l a b : ∀ i besta bestb,
  a ≤ b → (besta ≤ bestb)%nat → (besta ≤ i)%nat →
  (last_le l a i besta ≤ last_le l b i bestb)%nat.
Proof.
  induction l as [|x l IH]; intros i besta bestb Hab Hbest Hi; simpl; [done|].
  destruct (time x <=? a) eqn:Ea.
  - apply N.leb_le in Ea. assert (Eb : (time x <=? b) = true)
      by (apply N.leb_le; lia).
    rewrite Eb. apply IH; auto.
  - destruct (time x <=? b); apply IH; auto.
Qed.

Lemma find_pos_from_range_last idx lr res t :
  last idx = Some lr → time lr ≤ t → 0 < res →
  find_pos_from_range idx res t (length idx - 1) (length idx)
  = Some (mk_pos_result (N.of_nat (length idx - 1)) (time lr) (pos lr)
            (sub64 t (time lr) / res)).
Proof.
  intros Hl Ht Hres. apply last_Some in Hl as [l ->].
  rewrite length_app. simpl.
  replace (length l + 1 - 1)%nat with (length l) by lia.
  unfold find_pos_from_range.
  replace (length l + 1 - length l)%nat with 1%nat by lia.
  rewrite (list_lookup_middle l [] lr (length l)) by done. simpl.
  assert (E : (t <? time lr) = false) by (apply N.ltb_ge; lia). rewrite E.
  rewrite drop_app_length. simpl.
  assert (E' : (time lr <=? t) = true) by (by apply N.leb_le). rewrite E'.
  rewrite (list_lookup_middle l [] lr (length l)) by done. simpl.
  rewrite check_true by (by apply N.ltb_lt). simpl.
  rewrite (lookup_ge_None_2 (l ++ [lr]) (S (length l)))
    by (rewrite length_app; simpl; lia).
  done.
Qed.

Lemma find_pos_from_range_before idx lr res t :
  last idx = Some lr → t < time lr →
  find_pos_from_range idx res t (length idx - 1) (length idx)
  = Some (mk_pos_result (N.of_nat (length idx - 1)) (time lr) (pos lr) 0).
Proof.
  intros Hl Ht. apply last_Some in Hl as [l ->].
  rewrite length_app. simpl.
  replace (length l + 1 - 1)%nat with (length l) by lia.
  unfold find_pos_from_range.
  rewrite (list_lookup_middle l [] lr (length l)) by done. simpl.
  assert (E : (t <? time lr) = true) by (by apply N.ltb_lt). by rewrite E.
Qed.

Lemma find_pos_last idx a0 lr res t hint :
  head idx = Some a0 → last idx = Some lr →
  time a0 ≤ t → time lr ≤ t → 0 < res →
  find_pos idx res t hint
  = Some (mk_pos_result (N.of_nat (length idx - 1)) (time lr) (pos lr)
            (sub64 t (time lr) / res)).
Proof.
  intros Hh Hl Ht0 Ht Hres. unfold find_pos, find_pos_from_range.
  rewrite <- head_lookup, Hh. simpl.
  assert (E : (t <? time a0) = false) by (apply N.ltb_ge; lia). rewrite E.
  rewrite Nat.sub_0_r, drop_0, firstn_all.
  apply last_Some in Hl as [l ->].
  rewrite last_le_app_last by done. simpl.
  rewrite length_app. simpl.
  replace (length l + 1 - 1)%nat with (length l) by lia.
  rewrite (list_lookup_middle l [] lr (length l)) by done. simpl.
  rewrite check_true by (by apply N.ltb_lt). simpl.
  rewrite (lookup_ge_None_2 (l ++ [lr]) (S (length l)))
    by (rewrite length_app; simpl; lia).
  done.
Qed.

Lemma find_pos_before idx a0 res t hint :
  head idx = Some a0 → t < time a0 →
  find_pos idx res t hint = Some (mk_pos_result 0 (time a0) (pos a0) 0).
Proof.
  intros Hh Ht. unfold find_pos, find_pos_from_range.
  rewrite <- head_lookup, Hh. simpl.
  assert (E : (t <? time a0) = true) by (by apply N.ltb_lt). by rewrite E.
Qed.

(** Where [find_pos] does not report a time before the beginning, the anchor
    it selects is the last one at or before [t]. *)
Lemma find_pos_index_offset idx res t hint p :
  find_pos idx res t hint = Some p → p_time p ≤ t →
  p_index_offset p = N.of_nat (last_le idx t 0 0).
Proof.
  unfold find_pos, find_pos_from_range. intros H Ht.
  destruct (idx !! 0%nat) as [first|] eqn:E0; [|done]. simpl in H.
  destruct (t <? time first) eqn:E.
  - injection H as <-. simpl in Ht. apply N.ltb_lt in E. lia.
  - rewrite Nat.sub_0_r, drop_0, firstn_all in H.
    destruct (idx !! last_le idx t 0 0); [|done]. simpl in H.
    destruct (check (0 <? res)); [|done]. simpl in H.
    by injection H as <-.
Qed.

(** ** The case analysis of [put] *)

Lemma at_pos_lt {A} (v : list A) i x : at_pos v i = Some x → i < vsize v.
Proof.
  unfold at_pos, vsize. intros H. apply lookup_lt_Some in H. lia.
Qed.

Lemma at_pos_is_Some {A} (v : list A) i : i < vsize v → is_Some (at_pos v i).
Proof.
  unfold at_pos, vsize. intros H. apply lookup_lt_is_Some. lia.
Qed.

Lemma at_pos_last {A} (v : list A) x :
  last v = Some x → at_pos v (vsize v - 1) = Some x.
Proof.
  unfold at_pos, vsize. intros H. rewrite last_lookup in H.
  rewrite <- H. f_equal. destruct v; simpl; lia.
Qed.

Lemma tail_offset_bound tl lr t :
  0 < resolution tl → time lr ≤ t → t < u64_modulus →
  time lr + tail_offset tl lr t * resolution tl ≤ t
  ∧ t < time lr + (tail_offset tl lr t + 1) * resolution tl.
Proof.
  intros Hres Ht Hlt. unfold tail_offset.
  rewrite sub64_exact by done.
  pose proof (N.div_mod (t - time lr) (resolution tl)) as Hdm.
  pose proof (N.mod_lt (t - time lr) (resolution tl)) as Hm.
  specialize (Hdm ltac:(lia)). specialize (Hm ltac:(lia)).
  set (q := (t - time lr) `div` resolution tl) in *.
  set (r := (t - time lr) `mod` resolution tl) in *.
  nia.
Qed.

Lemma put_cases tl t c :
  wf tl → t < u64_modulus →
  ∃ ok tl', put tl t c = Some (ok, tl') ∧ put_case tl t c ok tl'.
Proof.
  intros [Hres Hsize Hne Hanchor _ _ _] Ht. unfold put.
  destruct (last (index tl)) as [lr|] eqn:Hlast.
  - destruct (time lr <=? t) eqn:Hle.
    + apply N.leb_le in Hle.
      rewrite (find_pos_from_range_last _ lr) by (done || lia). simpl.
      fold (tail_offset tl lr t). fold (tail_target tl lr t).
      assert (Hin : lr ∈ index tl).
      { apply last_Some in Hlast as [l ->].
        apply elem_of_app. right. apply list_elem_of_singleton. done. }
      destruct (Hanchor lr Hin) as [Hpos Htime].
      destruct (tail_target tl lr t <? vsize (data tl)) eqn:Hexists.
      * apply N.ltb_lt in Hexists.
        rewrite sub64_exact by (done || lia).
        destruct (vsize (data tl) - tail_target tl lr t
                  <? ADD_BUCKET_BACK_LIMIT) eqn:Hback.
        -- apply N.ltb_lt in Hback.
           destruct (at_pos_is_Some _ _ Hexists) as [current Hcur].
           exists true. eexists. split; [|by eapply case_update].
           rewrite Hcur. simpl.
           set (n := N.to_nat (tail_target tl lr t)).
           assert (Hn : (n < length (data tl))%nat)
             by (unfold vsize in Hexists; lia).
           assert (Hprev :
             (if 0 <? tail_target tl lr t
              then at_pos (data tl) (sub64 (tail_target tl lr t) 1)
              else Some zero_item)
             = Some (default zero_item (last (take n (data tl))))).
           { destruct (0 <? tail_target tl lr t) eqn:Hz.
             - apply N.ltb_lt in Hz.
               rewrite sub64_exact by (lia || apply add64_lt).
               unfold at_pos.
               replace (N.to_nat (tail_target tl lr t - 1)) with (n - 1)%nat
                 by lia.
               rewrite last_lookup, length_take, lookup_take_lt by lia.
               replace (Init.Nat.pred (n `min` length (data tl)))
                 with (n - 1)%nat by lia.
               destruct (lookup_lt_is_Some_2 (data tl) (n - 1)%nat) as [x ->];
                 [lia|done].
             - apply N.ltb_ge in Hz.
               replace n with 0%nat by lia. done. }
           rewrite Hprev. simpl.
           rewrite insert_take_drop by done. fold n.
           set (before := take n (data tl)).
           set (updated := update_current _ current c).
           set (behind := drop (S n) (data tl)).
           assert (Hlen : (length (before ++ updated :: behind) - S n)%nat
                          = length behind).
           { rewrite length_app. simpl. unfold before, behind.
             rewrite length_take, length_drop. lia. }
           rewrite Hlen.
           replace (S n) with (S (length before))
             by (unfold before; rewrite length_take; lia).
           by rewrite propogate_loop_spec.
        -- apply N.ltb_ge in Hback.
           exists false, tl. split; [done|]. by eapply case_far.
      * apply N.ltb_ge in Hexists.
        assert (Hdata : data tl ≠ []).
        { intros E. apply Hne in E. rewrite E in Hlast. done. }
        destruct (last (data tl)) as [prev|] eqn:Hprev;
          [|by apply last_None in Hprev].
        assert (Hpositive : 0 < vsize (data tl)).
        { unfold vsize. destruct (data tl); [done|simpl; lia]. }
        rewrite sub64_exact by (done || lia).
        rewrite (at_pos_last _ _ Hprev). simpl.
        rewrite add64_exact by lia.
        replace (vsize (data tl) - 1 + 1) with (vsize (data tl)) by lia.
        destruct (tail_target tl lr t =? vsize (data tl)) eqn:Hadj.
        -- apply N.eqb_eq in Hadj.
           exists true. eexists. split; [done|]. by eapply case_append.
        -- apply N.eqb_neq in Hadj.
           destruct (tail_offset_bound tl lr t) as [Hlo Hhi]; [lia|done|done|].
           assert (Hk : 1 ≤ tail_offset tl lr t).
           { destruct (N.eq_dec (tail_offset tl lr t) 0) as [E|]; [|lia].
             unfold tail_target, add64 in Hexists.
             rewrite E, N.add_0_r in Hexists.
             pose proof (wrap_le (pos lr)). lia. }
           fold (tail_offset tl lr t) in *.
           rewrite mul64_exact, add64_exact by lia.
           rewrite !check_true; simpl.
           ++ unfold index_push_back. rewrite Hlast. simpl.
              rewrite check_true; simpl.
              ** exists true. eexists. split; [done|].
                 eapply case_gap; eauto. lia.
              ** apply andb_true_iff. split; apply N.ltb_lt; simpl; [nia|lia].
           ++ apply N.ltb_lt. lia.
           ++ by apply N.leb_le.
    + apply N.leb_gt in Hle.
      exists false, tl. split; [done|]. by eapply case_old.
  - assert (Hidx : index tl = []) by (by apply last_None).
    assert (Hdata : data tl = []) by (by apply Hne).
    rewrite Hdata, Hidx. simpl.
    exists true. eexists. split; [done|].
    destruct tl as [idx dat res]. simpl in *. subst.
    by apply case_first.
Qed.

Lemma put_inv tl t c ok tl' :
  wf tl → t < u64_modulus →
  put tl t c = Some (ok, tl') → put_case tl t c ok tl'.
Proof.
  intros Hwf Ht Hput.
  destruct (put_cases tl t c Hwf Ht) as (ok' & tl'' & Hput' & Hcase).
  rewrite Hput in Hput'. by injection Hput' as -> ->.
Qed.

(** ** The invariant of reachable timelines *)

Lemma vsize_app {A} (v w : list A) : vsize (v ++ w) = vsize v + vsize w.
Proof. unfold vsize. rewrite length_app. lia. Qed.

Lemma update_length (dat : list data_item) n x prev :
  (n < length dat)%nat →
  length (take n dat ++ x :: repropogate prev (drop (S n) dat)) = length dat.
Proof.
  intros Hn. rewrite length_app. simpl.
  rewrite repropogate_length, length_take, length_drop. lia.
Qed.

Lemma put_case_wf tl t c tl' :
  wf tl → t < u64_modulus → c < u64_modulus →
  put_case tl t c true tl' →
  vsize (data tl') < u64_modulus →
  wf tl'.
Proof.
  intros [Hres Hsize Hne Hanchor Hdata Hcum Haligned] Ht Hc Hcase Hsize'.
  inversion Hcase as
    [Hidx Hdat | | | lr current Hlast Hle Hexists Hback Hcur
    | lr prev Hlast Hle Hadj Hprev
    | lr prev Hlast Hle Hbeyond Hprev Hk Hlo]; subst; clear Hcase.
  - (* the first put *)
    split; simpl in *; try done.
    + intros a Ha. apply list_elem_of_singleton in Ha as ->. simpl.
      split; [unfold vsize; simpl; lia | done].
    + repeat constructor; simpl; auto with u64.
    + split; [|done]. unfold propogate. simpl.
      rewrite add64_exact by (simpl; lia). f_equal.
      unfold mul64. unfold add64. simpl. symmetry. apply wrap_small, wrap_lt.
    + intros a0 a [= <-] Ha. apply list_elem_of_singleton in Ha as ->.
      exists 0. lia.
  - (* an update inside the backfill window *)
    set (n := N.to_nat (tail_target tl lr t)) in *.
    assert (Hn : (n < length (data tl))%nat) by (unfold vsize in Hexists; lia).
    assert (Hsplit : data tl = take n (data tl) ++ current :: drop (S n) (data tl)).
    { symmetry. by apply take_drop_middle. }
    split; simpl in *; try done.
    + split; intros E.
      * rewrite E in Hlast. done.
      * by destruct (take n (data tl)).
    + unfold vsize. rewrite update_length by done. apply Hanchor.
    + apply Forall_app. split; [by apply Forall_take|].
      constructor.
      * apply propogate_in_range. apply add64_lt.
      * apply repropogate_in_range. by apply Forall_drop.
    + rewrite Hsplit in Hcum. apply cumulative_app in Hcum as [Hbefore _].
      apply cumulative_app. split; [done|]. simpl.
      split; [done | apply repropogate_cumulative].
  - (* an append right behind the last bucket *)
    split; simpl in *; try done.
    + split; intros E.
      * rewrite E in Hlast. done.
      * by destruct (data tl).
    + intros a Ha. destruct (Hanchor a Ha). rewrite vsize_app. lia.
    + apply Forall_app. split; [done|].
      repeat constructor; simpl; auto with u64.
    + apply cumulative_app. rewrite Hprev. by simpl.
  - (* an append behind a gap, with its anchor *)
    split; simpl in *; try done.
    + split; intros E.
      * by destruct (index tl).
      * by destruct (data tl).
    + intros a Ha. rewrite vsize_app.
      apply elem_of_app in Ha as [Ha | Ha].
      * destruct (Hanchor a Ha). lia.
      * apply list_elem_of_singleton in Ha as ->. simpl.
        change (vsize [propogate prev (mk_data_item c 0 0)]) with 1. lia.
    + apply Forall_app. split; [done|].
      repeat constructor; simpl; auto with u64.
    + apply cumulative_app. rewrite Hprev. by simpl.
    + intros a0 a Hhead Ha.
      assert (Hhead' : head (index tl) = Some a0).
      { destruct (index tl); [done | by simpl in *]. }
      assert (Hin : lr ∈ index tl).
      { apply last_Some in Hlast as [l ->].
        apply elem_of_app. right. by apply list_elem_of_singleton. }
      apply elem_of_app in Ha as [Ha | Ha]; [by eapply Haligned|].
      apply list_elem_of_singleton in Ha as ->. simpl.
      destruct (Haligned a0 lr Hhead' Hin) as [k0 Hk0].
      exists (k0 + tail_offset tl lr t). lia.
Qed.

Lemma empty_wf res : 0 < res → res < u64_modulus → wf (empty_timeline res).
Proof.
  intros. split; simpl; try done.
  intros a Ha. by apply elem_of_nil in Ha.
Qed.

Lemma reachable_wf res tl : reachable res tl → wf tl.
Proof.
  induction 1 as [| tl t c tl' _ IH Ht Hc Hput Hsize].
  - by apply empty_wf.
  - apply (put_case_wf tl t c); auto. by apply put_inv.
Qed.

Lemma reachable_resolution res tl : reachable res tl → resolution tl = res.
Proof.
  induction 1 as [| tl t c tl' Hr IH Ht Hc Hput Hsize]; [done|].
  apply put_inv in Hput; [|by eapply reachable_wf|done].
  inversion Hput; subst; done.
Qed.

(** ** The cumulative sums *)

(** C1, as amended: in every timeline reached by accepted puts from an empty
    one, the [integral] of the bucket at position [p] is the sum of the
    [value]s of the buckets [0..p] reduced modulo 2^64, and its
    [second_integral] is the sum of their squares reduced modulo 2^64. *)
Theorem cumulative_fields_modulo res tl p d :
  reachable res tl → data tl !! p = Some d →
  integral d = wrap (sum_values (take (S p) (data tl)))
  ∧ second_integral d = wrap (sum_squares (take (S p) (data tl))).
Proof.
  intros Hr Hp. apply reachable_wf in Hr.
  destruct (cumulative_prefix_sums _ _ _ _ (wf_cumulative _ Hr) Hp) as [Hi Hs].
  by rewrite Hi, Hs.
Qed.

Lemma cumulative_fields_modulo_witness :
  integral (mk_data_item 3 8 34) = wrap (5 + (3 + 0))
  ∧ second_integral (mk_data_item 3 8 34) = wrap (5 * 5 + (3 * 3 + 0)).
Proof.
  apply (cumulative_fields_modulo 10
           (mk_timeline [mk_index_item 100 0]
              [mk_data_item 5 5 25; mk_data_item 3 8 34] 10) 1).
  - apply (reach_put 10 (mk_timeline [mk_index_item 100 0]
                           [mk_data_item 5 5 25] 10) 110 3); try done.
    apply (reach_put 10 (empty_timeline 10) 100 5); try done.
    by apply reach_empty.
  - reflexivity.
Defined.

(** C1 fails as stated: the square of the count 2^32 does not fit 64 bits, and
    after [put(0, 2^32)] on an empty timeline the [second_integral] of
    bucket 0 is 0, not the sum of squares 2^64. *)
Lemma second_integral_overflows :
  ∃ tl d,
    reachable 10 tl ∧ put (empty_timeline 10) 0 (2 ^ 32) = Some (true, tl)
    ∧ data tl !! 0%nat = Some d
    ∧ second_integral d = 0
    ∧ sum_squares (take 1 (data tl)) = 2 ^ 64
    ∧ second_integral d ≠ sum_squares (take 1 (data tl)).
Proof.
  exists (mk_timeline [mk_index_item 0 0] [mk_data_item (2 ^ 32) (2 ^ 32) 0] 10),
    (mk_data_item (2 ^ 32) (2 ^ 32) 0).
  split; [|done].
  apply (reach_put 10 (empty_timeline 10) 0 (2 ^ 32)); try done.
  by apply reach_empty.
Qed.

(** ** Rejected puts *)

(** C2: a [put] that returns false leaves the timeline, its data vector and
    its index, exactly as it was. *)
Theorem put_rejected_unchanged tl t c tl' :
  put tl t c = Some (false, tl') → tl' = tl.
Proof.
  unfold put, index_push_back. intros H.
  repeat split_fallible H; congruence.
Qed.

Lemma put_rejected_unchanged_witness :
  mk_timeline [mk_index_item 100 0] [mk_data_item 5 5 25] 10
  = mk_timeline [mk_index_item 100 0] [mk_data_item 5 5 25] 10.
Proof.
  apply (put_rejected_unchanged
           (mk_timeline [mk_index_item 100 0] [mk_data_item 5 5 25] 10) 90 7).
  reflexivity.
Defined.

(** ** Anchor times *)

(** C7, as amended: in every timeline reached by accepted puts, the time of
    every anchor is the time of the first anchor plus a multiple of the
    resolution; the first put on an empty timeline stores its timestamp [t]
    as it is in the first anchor. *)
Theorem anchor_times_aligned res tl a0 a :
  reachable res tl → head (index tl) = Some a0 → a ∈ index tl →
  (∃ k, time a = time a0 + k * res)
  ∧ (∀ t c, put (empty_timeline res) t c
            = Some (true, mk_timeline [mk_index_item t 0]
                            [mk_data_item c c (mul64 c c)] res)).
Proof.
  intros Hr Hhead Ha. split; [|done].
  rewrite <- (reachable_resolution res tl Hr).
  apply reachable_wf in Hr. by apply (wf_aligned _ Hr).
Qed.

Lemma anchor_times_aligned_witness :
  (∃ k, time (mk_index_item 195 1) = time (mk_index_item 105 0) + k * 10)
  ∧ (∀ t c, put (empty_timeline 10) t c
            = Some (true, mk_timeline [mk_index_item t 0]
                            [mk_data_item c c (mul64 c c)] 10)).
Proof.
  apply (anchor_times_aligned 10
           (mk_timeline [mk_index_item 105 0; mk_index_item 195 1]
              [mk_data_item 5 5 25; mk_data_item 7 12 74] 10)).
  - apply (reach_put 10 (mk_timeline [mk_index_item 105 0]
                           [mk_data_item 5 5 25] 10) 200 7); try done.
    apply (reach_put 10 (empty_timeline 10) 105 5); try done.
    by apply reach_empty.
  - reflexivity.
  - apply list_elem_of_further, list_elem_of_here.
Defined.

(** C7 fails as stated: at resolution 10 the first put at time 105 leaves
    the anchor time 105, and the gap anchor of a later put at time 200 gets
    the time 195; neither is a multiple of 10. *)
Lemma anchor_time_not_a_multiple :
  ∃ tl, reachable 10 tl
        ∧ index tl = [mk_index_item 105 0; mk_index_item 195 1]
        ∧ 105 mod 10 = 5 ∧ 195 mod 10 = 5.
Proof.
  exists (mk_timeline [mk_index_item 105 0; mk_index_item 195 1]
            [mk_data_item 5 5 25; mk_data_item 7 12 74] 10).
  repeat split.
  apply (reach_put 10 (mk_timeline [mk_index_item 105 0]
                         [mk_data_item 5 5 25] 10) 200 7); try done.
  apply (reach_put 10 (empty_timeline 10) 105 5); try done.
  by apply reach_empty.
Qed.

(** ** Reading an empty timeline *)

Lemma clamp_empty r : clamp r 0 = None.
Proof.
  unfold clamp. assert (E : (p_pos r <? 0) = false) by (apply N.ltb_ge; lia).
  by rewrite E.
Qed.

(** C10: on a timeline whose data vector is empty [get] aborts for every time
    and hint, because the precondition of [clamp] cannot hold for size 0;
    [diff] and [summary] return their zero results without reading. *)
Theorem get_on_empty_is_fatal tl t hint :
  data tl = [] →
  get tl t hint = None
  ∧ (∀ r, clamp r (vsize (data tl)) = None)
  ∧ (0 < resolution tl →
     ∀ a b, diff tl a b hint
            = Some (mk_diff_result (N.min a b) (N.max a b) (resolution tl)
                      0 0 0 0 0 zero_item zero_item))
  ∧ (index tl = [] → 0 < resolution tl →
     summary tl = Some (mk_summary_result 0 0 (resolution tl) 0 0 0 0)).
Proof.
  intros Hdata. repeat split.
  - unfold get. rewrite Hdata.
    destruct (find_pos _ _ _ _); simpl; [|done].
    change (vsize []) with 0. by rewrite clamp_empty.
  - intros r. rewrite Hdata. apply clamp_empty.
  - intros Hres a b. unfold diff.
    rewrite (check_true (0 <? resolution tl)) by (by apply N.ltb_lt). simpl.
    rewrite Hdata. change (vsize [] =? 0) with true.
    destruct (b <? a) eqn:E.
    + apply N.ltb_lt in E. simpl.
      by rewrite N.min_r, N.max_l by lia.
    + apply N.ltb_ge in E. simpl.
      by rewrite N.min_l, N.max_r by lia.
  - intros Hidx Hres. unfold summary.
    rewrite (check_true (0 <? resolution tl)) by (by apply N.ltb_lt).
    simpl. by rewrite Hidx.
Qed.

Lemma get_on_empty_is_fatal_witness :
  get (empty_timeline 10) 100 0 = None
  ∧ (∀ r, clamp r (vsize (data (empty_timeline 10))) = None)
  ∧ (0 < resolution (empty_timeline 10) →
     ∀ a b, diff (empty_timeline 10) a b 0
            = Some (mk_diff_result (N.min a b) (N.max a b)
                      (resolution (empty_timeline 10))
                      0 0 0 0 0 zero_item zero_item))
  ∧ (index (empty_timeline 10) = [] → 0 < resolution (empty_timeline 10) →
     summary (empty_timeline 10)
     = Some (mk_summary_result 0 0 (resolution (empty_timeline 10)) 0 0 0 0)).
Proof. apply (get_on_empty_is_fatal (empty_timeline 10) 100 0). reflexivity. Defined.

(** ** The scenarios of the specification *)

(** C8: at resolution 10, [put(100, 5)] on an empty timeline is accepted and
    [summary] then returns from 100, to 110, sum 5, mean 5.0, variance 0.0
    and n 1. *)
Theorem first_put_summary :
  ∃ tl, put (empty_timeline 10) 100 5 = Some (true, tl)
        ∧ summary tl
          = Some (mk_summary_result 100 110 10 5 5%float 0%float 1).
Proof.
  exists (mk_timeline [mk_index_item 100 0] [mk_data_item 5 5 25] 10).
  split; vm_compute; reflexivity.
Qed.

(** C5, as amended: after the three puts [diff(100, 130)] takes the bucket of
    time 100 as its lower sample, so the count 5 of that bucket is left out:
    it returns sum 5, n 3, mean 5/3 and variance 13/3 - (5/3)^2, in double
    arithmetic. *)
Theorem three_puts_diff :
  three_puts
  = Some (mk_timeline [mk_index_item 100 0]
            [mk_data_item 5 5 25; mk_data_item 3 8 34; mk_data_item 2 10 38]
            10)
  ∧ (tl ← three_puts; diff tl 100 130 0)
    = Some (mk_diff_result 100 130 10 0 5
              (5 / 3)%float (13 / 3 - (5 / 3) * (5 / 3))%float 3
              (mk_data_item 5 5 25) (mk_data_item 2 10 38)).
Proof. split; vm_compute; reflexivity. Qed.

(** C5 fails as stated: the sum is 5, not 10, and the mean is not 10/3. *)
Lemma scenario_diff_sum_is_not_10 :
  (dr_sum <$> (tl ← three_puts; diff tl 100 130 0)) = Some 5
  ∧ (dr_sum <$> (tl ← three_puts; diff tl 100 130 0)) ≠ Some 10
  ∧ (dr_mean <$> (tl ← three_puts; diff tl 100 130 0)) ≠ Some (10 / 3)%float.
Proof.
  split; [vm_compute; reflexivity|].
  split; vm_compute; intros H; discriminate H.
Qed.

(** ** Reading *)

Lemma head_elem_of {A} (l : list A) x : head l = Some x → x ∈ l.
Proof. destruct l; [done|]. intros [= ->]. apply list_elem_of_here. Qed.

Lemma last_elem_of {A} (l : list A) x : last l = Some x → x ∈ l.
Proof.
  intros [l' ->]%last_Some. apply elem_of_app. right.
  by apply list_elem_of_singleton.
Qed.

Lemma get_before tl a0 t hint :
  wf tl → head (index tl) = Some a0 → t < time a0 →
  get tl t hint = Some (mk_get_result 0 t (time a0) (pos a0) 0 zero_item).
Proof.
  intros Hwf Hhead Ht. unfold get.
  rewrite (find_pos_before _ a0) by done. simpl.
  destruct (wf_anchor _ Hwf a0 (head_elem_of _ _ Hhead)) as [Hpos _].
  unfold clamp. simpl.
  rewrite (check_true (_ <? _)) by (by apply N.ltb_lt). simpl.
  assert (E : (add64 (pos a0) 0 <? vsize (data tl)) = true).
  { apply N.ltb_lt. unfold add64. rewrite N.add_0_r.
    pose proof (wrap_le (pos a0)). lia. }
  rewrite E. simpl.
  assert (E' : (t <? time a0) = true) by (by apply N.ltb_lt).
  by rewrite E'.
Qed.

Lemma get_resolved tl t hint p d :
  find_pos (index tl) (resolution tl) t hint = Some p →
  p_time p ≤ t → p_pos p < vsize (data tl) →
  at_pos (data tl) (add64 (p_pos p) (p_offset p)) = Some d →
  get tl t hint
  = Some (mk_get_result (p_index_offset p) t (p_time p) (p_pos p)
            (p_offset p) d).
Proof.
  intros Hfind Ht Hpos Hd. unfold get. rewrite Hfind. simpl.
  unfold clamp. rewrite (check_true (_ <? _)) by (by apply N.ltb_lt). simpl.
  assert (E : (add64 (p_pos p) (p_offset p) <? vsize (data tl)) = true)
    by (apply N.ltb_lt; by eapply at_pos_lt).
  rewrite E. simpl.
  assert (E' : (t <? p_time p) = false) by (apply N.ltb_ge; lia).
  by rewrite E', Hd.
Qed.

(** Reading at or after the last anchor, inside the data vector. *)
Lemma get_tail_inside tl a0 lr t hint d :
  wf tl → head (index tl) = Some a0 → last (index tl) = Some lr →
  time lr ≤ t →
  at_pos (data tl) (tail_target tl lr t) = Some d →
  get tl t hint
  = Some (mk_get_result (N.of_nat (length (index tl) - 1)) t (time lr)
            (pos lr) (tail_offset tl lr t) d).
Proof.
  intros Hwf Hhead Hlast Ht Hd.
  destruct (wf_aligned _ Hwf a0 lr Hhead (last_elem_of _ _ Hlast)) as [k Hk].
  destruct (wf_anchor _ Hwf lr (last_elem_of _ _ Hlast)) as [Hpos _].
  pose proof (wf_res _ Hwf).
  by rewrite (get_resolved tl t hint
                (mk_pos_result (N.of_nat (length (index tl) - 1)) (time lr)
                   (pos lr) (tail_offset tl lr t)) d)
    by (done || apply (find_pos_last _ a0); (done || lia)).
Qed.

(** Reading at or after the last anchor, beyond the data vector: [clamp]
    brings the offset back to the last bucket. *)
Lemma get_tail_clamped tl a0 lr t hint d :
  wf tl → head (index tl) = Some a0 → last (index tl) = Some lr →
  time lr ≤ t →
  vsize (data tl) ≤ tail_target tl lr t →
  last (data tl) = Some d →
  get tl t hint
  = Some (mk_get_result (N.of_nat (length (index tl) - 1)) t (time lr)
            (pos lr) (vsize (data tl) - pos lr - 1) d).
Proof.
  intros Hwf Hhead Hlast Ht Hbeyond Hd.
  destruct (wf_aligned _ Hwf a0 lr Hhead (last_elem_of _ _ Hlast)) as [k Hk].
  destruct (wf_anchor _ Hwf lr (last_elem_of _ _ Hlast)) as [Hpos _].
  pose proof (wf_res _ Hwf) as Hres. pose proof (wf_size _ Hwf) as Hsize.
  unfold get.
  rewrite (find_pos_last _ a0 lr) by (done || lia). simpl.
  unfold clamp. simpl. rewrite (check_true (_ <? _)) by (by apply N.ltb_lt). simpl.
  fold (tail_offset tl lr t). fold (tail_target tl lr t).
  assert (E : (tail_target tl lr t <? vsize (data tl)) = false)
    by (by apply N.ltb_ge).
  rewrite E.
  rewrite (sub64_exact (vsize (data tl)) (pos lr)) by lia.
  rewrite (sub64_exact (vsize (data tl) - pos lr) 1) by lia.
  rewrite (add64_exact (pos lr)) by lia.
  replace (pos lr + (vsize (data tl) - pos lr - 1))
    with (vsize (data tl) - 1) by lia.
  rewrite (check_true (_ && _))
    by (apply andb_true_iff; split; apply N.leb_le; lia). simpl.
  assert (E' : (t <? time lr) = false) by (apply N.ltb_ge; lia).
  rewrite E'. rewrite (add64_exact (pos lr)) by lia.
  replace (pos lr + (vsize (data tl) - pos lr - 1))
    with (vsize (data tl) - 1) by lia.
  by rewrite (at_pos_last _ _ Hd).
Qed.

(** C9: on a non-empty reachable timeline, [get(t, 0)] for a time [t] before
    the first anchor returns the zero bucket, with the time of the first
    anchor as its [range_time]. *)
Theorem get_before_first_anchor res tl a0 t :
  reachable res tl → head (index tl) = Some a0 → t < time a0 →
  ∃ g, get tl t 0 = Some g
       ∧ g_value g = mk_data_item 0 0 0
       ∧ range_time g = time a0.
Proof.
  intros Hr Hhead Ht. apply reachable_wf in Hr.
  rewrite (get_before tl a0) by done. eauto.
Qed.

Lemma get_before_first_anchor_witness :
  ∃ g, get (mk_timeline [mk_index_item 100 0] [mk_data_item 5 5 25] 10) 42 0
       = Some g
       ∧ g_value g = mk_data_item 0 0 0
       ∧ range_time g = time (mk_index_item 100 0).
Proof.
  apply (get_before_first_anchor 10).
  - apply (reach_put 10 (empty_timeline 10) 100 5); try done.
    by apply reach_empty.
  - reflexivity.
  - reflexivity.
Defined.

(** ** Differences *)

(** C4, as amended: for [a <= b] that both resolve to existing buckets,
    [diff(a, b).sum] is [data[pos_b].integral - data[pos_a].integral] in
    64-bit arithmetic when at least one whole resolution lies between [a] and
    [b]; when [(b - a) / resolution] is 0, [diff] returns the sum 0. *)
Theorem diff_sum_between_resolved tl a b hint pos_a pos_b da db :
  0 < resolution tl → a ≤ b → b < u64_modulus →
  resolves tl a hint pos_a da → resolves tl b hint pos_b db →
  ∃ r, diff tl a b hint = Some r
       ∧ dr_sum r = if (b - a) / resolution tl =? 0 then 0
                    else sub64 (integral db) (integral da).
Proof.
  intros Hres Hab Hb (pa & Hfa & Hta & Hpa & -> & Hda)
    (pb & Hfb & Htb & Hpb & -> & Hdb).
  unfold diff.
  rewrite (check_true (0 <? resolution tl)) by (by apply N.ltb_lt). simpl.
  assert (E : (b <? a) = false) by (apply N.ltb_ge; lia). rewrite E.
  assert (E0 : (vsize (data tl) =? 0) = false) by (apply N.eqb_neq; lia).
  rewrite E0.
  rewrite (get_resolved tl a hint pa da), (get_resolved tl b hint pb db)
    by done.
  simpl. rewrite N.max_l, N.min_l by lia.
  rewrite sub64_exact by lia.
  destruct ((b - a) / resolution tl =? 0) eqn:En; [eauto|].
  apply N.eqb_neq in En. set (n := (b - a) / resolution tl) in *.
  rewrite (check_true (0 <? n)) by (apply N.ltb_lt; lia). simpl.
  rewrite (check_true (_ <=? _)).
  - simpl. unfold diff_buckets.
    rewrite (check_true (0 <? resolution tl)) by (by apply N.ltb_lt). simpl.
    rewrite (check_true (0 <? n)) by (apply N.ltb_lt; lia). simpl. eauto.
  - apply N.leb_le.
    rewrite (find_pos_index_offset _ _ _ _ _ Hfa Hta),
      (find_pos_index_offset _ _ _ _ _ Hfb Htb).
    assert (Hmono : (last_le (index tl) a 0 0 ≤ last_le (index tl) b 0 0)%nat)
      by (by apply last_le_mono).
    lia.
Qed.

Lemma diff_sum_between_resolved_witness :
  ∃ r, diff (mk_timeline [mk_index_item 100 0]
               [mk_data_item 5 5 25; mk_data_item 3 8 34] 10) 100 110 0
       = Some r
       ∧ dr_sum r = if (110 - 100) / 10 =? 0 then 0
                    else sub64 (integral (mk_data_item 3 8 34))
                           (integral (mk_data_item 5 5 25)).
Proof.
  apply (diff_sum_between_resolved
           (mk_timeline [mk_index_item 100 0]
              [mk_data_item 5 5 25; mk_data_item 3 8 34] 10)
           100 110 0 0 1).
  - reflexivity.
  - discriminate.
  - reflexivity.
  - exists (mk_pos_result 0 100 0 0). repeat split. discriminate.
  - exists (mk_pos_result 0 100 0 1). repeat split; discriminate.
Defined.

(** C4 fails as stated: in the timeline after [put(100,5)] and [put(110,3)]
    at resolution 10 the times 105 and 112 resolve to the buckets 0 and 1,
    whose integrals differ by 3, and [diff(105, 112)] returns the sum 0
    because less than one resolution lies between them. *)
Lemma diff_sum_is_zero_within_a_resolution :
  ∃ tl d0 d1,
    reachable 10 tl
    ∧ resolves tl 105 0 0 d0 ∧ resolves tl 112 0 1 d1
    ∧ (dr_sum <$> diff tl 105 112 0) = Some 0
    ∧ integral d1 - integral d0 = 3.
Proof.
  exists (mk_timeline [mk_index_item 100 0]
            [mk_data_item 5 5 25; mk_data_item 3 8 34] 10),
    (mk_data_item 5 5 25), (mk_data_item 3 8 34).
  split.
  { apply (reach_put 10 (mk_timeline [mk_index_item 100 0]
                           [mk_data_item 5 5 25] 10) 110 3); try done.
    apply (reach_put 10 (empty_timeline 10) 100 5); try done.
    by apply reach_empty. }
  split.
  { exists (mk_pos_result 0 100 0 0). repeat split. discriminate. }
  split.
  { exists (mk_pos_result 0 100 0 1). repeat split. discriminate. }
  split; reflexivity.
Qed.

(** ** Rejection *)

Lemma put_target_tail tl lr t :
  wf tl → last (index tl) = Some lr → time lr ≤ t →
  put_target tl t = Some (tail_target tl lr t).
Proof.
  intros Hwf Hlast Ht. unfold put_target. pose proof (wf_res _ Hwf).
  by rewrite (find_pos_from_range_last _ lr) by (done || lia).
Qed.

Lemma put_target_old tl lr t :
  last (index tl) = Some lr → t < time lr →
  put_target tl t = Some (add64 (pos lr) 0).
Proof.
  intros Hlast Ht. unfold put_target.
  by rewrite (find_pos_from_range_before _ lr) by done.
Qed.

(** C3: on a non-empty reachable timeline [put(t, c)] returns, and it returns
    false exactly when [t] is before the time of the last anchor or the
    target bucket exists and lies [ADD_BUCKET_BACK_LIMIT = 60] or more behind
    [data.size()]; a target 60 behind is rejected, one 59 behind is
    accepted. *)
Theorem put_rejects_exactly res tl lr t c :
  reachable res tl → last (index tl) = Some lr → t < u64_modulus →
  ∃ ok tl' target,
    put tl t c = Some (ok, tl') ∧ put_target tl t = Some target
    ∧ (ok = false ↔
       t < time lr
       ∨ (target < vsize (data tl)
          ∧ ADD_BUCKET_BACK_LIMIT ≤ vsize (data tl) - target))
    ∧ (vsize (data tl) - target = 60 → ok = false)
    ∧ (time lr ≤ t → vsize (data tl) - target = 59 → ok = true).
Proof.
  intros Hr Hlast Ht. apply reachable_wf in Hr as Hwf.
  destruct (put_cases tl t c Hwf Ht) as (ok & tl' & Hput & Hcase).
  exists ok, tl'. unfold ADD_BUCKET_BACK_LIMIT in *.
  assert (Hsame : ∀ lr', last (index tl) = Some lr' → lr' = lr)
    by (intros lr' E; rewrite Hlast in E; by injection E).
  destruct (N.lt_ge_cases t (time lr)) as [Hold | Hle];
    [exists (add64 (pos lr) 0) | exists (tail_target tl lr t)];
    (split; [done|]);
    (split; [by (apply put_target_old || apply put_target_tail)|]);
    inversion Hcase as
      [Hidx Hdat | lr' Hl' Hold' | lr' Hl' Hle' Hex Hback
      | lr' cur Hl' Hle' Hex Hback Hcur | lr' prev Hl' Hle' Hadj Hprev
      | lr' prev Hl' Hle' Hbey Hprev Hk Hlo]; subst;
    unfold ADD_BUCKET_BACK_LIMIT in *;
    try (by rewrite Hidx in Hlast);
    apply Hsame in Hl' as ->; try lia;
    (split;
      [split; [intros ?; try done; (by left) || (right; lia)
              |intros [?|[? ?]]; try done; lia]
      |split; intros; try done; lia]).
Qed.

Lemma put_rejects_exactly_witness :
  ∃ ok tl' target,
    put (mk_timeline [mk_index_item 100 0] [mk_data_item 5 5 25] 10) 90 7
    = Some (ok, tl')
    ∧ put_target
        (mk_timeline [mk_index_item 100 0] [mk_data_item 5 5 25] 10) 90
      = Some target
    ∧ (ok = false ↔
       90 < time (mk_index_item 100 0)
       ∨ (target
          < vsize (data (mk_timeline [mk_index_item 100 0]
                           [mk_data_item 5 5 25] 10))
          ∧ ADD_BUCKET_BACK_LIMIT
            ≤ vsize (data (mk_timeline [mk_index_item 100 0]
                             [mk_data_item 5 5 25] 10)) - target))
    ∧ (vsize (data (mk_timeline [mk_index_item 100 0]
                      [mk_data_item 5 5 25] 10)) - target = 60 → ok = false)
    ∧ (time (mk_index_item 100 0) ≤ 90 →
       vsize (data (mk_timeline [mk_index_item 100 0]
                      [mk_data_item 5 5 25] 10)) - target = 59 → ok = true).
Proof.
  apply (put_rejects_exactly 10).
  - apply (reach_put 10 (empty_timeline 10) 100 5); try done.
    by apply reach_empty.
  - reflexivity.
  - reflexivity.
Defined.

(** ** A put and the difference that follows it *)

Lemma tail_offset_next tl lr t :
  0 < resolution tl → time lr ≤ t → t + resolution tl < u64_modulus →
  tail_offset tl lr (t + resolution tl) = tail_offset tl lr t + 1.
Proof.
  intros Hres Hle Ht. unfold tail_offset.
  rewrite !sub64_exact by lia.
  replace (t + resolution tl - time lr)
    with (t - time lr + 1 * resolution tl) by lia.
  apply N.div_add. lia.
Qed.

Lemma add64_succ a b : add64 a (b + 1) = add64 (add64 a b) 1.
Proof.
  rewrite add64_assoc. unfold add64 at 3. by rewrite add64_wrap_r.
Qed.

Lemma cumulative_step l : ∀ prev n x y,
  cumulative prev l → l !! n = Some x → l !! S n = Some y →
  y = propogate x y.
Proof.
  induction l as [|e l IH]; intros prev n x y Hc Hx Hy; [done|].
  destruct Hc as [_ Hc]. destruct n as [|n]; simpl in *.
  - injection Hx as ->. destruct l as [|e' l]; [done|].
    simpl in Hy. injection Hy as ->. by destruct Hc.
  - by eapply IH.
Qed.

(** The bucket an accepted put lands in is the one [t] resolves to from the
    last anchor afterwards; after an append it is the last bucket. *)
Lemma put_lands tl t c tl' :
  wf tl → t < u64_modulus →
  put_case tl t c true tl' →
  ∃ lr', last (index tl') = Some lr' ∧ time lr' ≤ t
         ∧ tail_target tl' lr' t < vsize (data tl')
         ∧ (length (data tl') ≠ length (data tl) →
            tail_target tl' lr' t + 1 = vsize (data tl')).
Proof.
  intros Hwf Ht Hcase.
  pose proof (wf_res _ Hwf) as Hres. pose proof (wf_size _ Hwf) as Hsize.
  inversion Hcase as
    [Hidx Hdat | | | lr current Hlast Hle Hexists Hback Hcur
    | lr prev Hlast Hle Hadj Hprev
    | lr prev Hlast Hle Hbeyond Hprev Hk Hlo]; subst; clear Hcase.
  - exists (mk_index_item t 0). unfold tail_target, tail_offset. simpl.
    rewrite sub64_diag, N.Div0.div_0_l. repeat split; done || lia.
  - exists lr. unfold tail_target, tail_offset in *. simpl.
    assert (Hn : (N.to_nat (add64 (pos lr) (sub64 t (time lr) / resolution tl))
                  < length (data tl))%nat) by (unfold vsize in Hexists; lia).
    unfold vsize. rewrite update_length by done.
    repeat split; done.
  - exists lr. unfold tail_target, tail_offset in *. simpl.
    rewrite vsize_app, Hadj. change (vsize [_]) with 1.
    repeat split; done || lia.
  - set (k := tail_offset tl lr t) in *.
    set (a := mk_index_item (time lr + k * resolution tl) (vsize (data tl))).
    set (tl' := mk_timeline _ _ _).
    destruct (tail_offset_bound tl lr t) as [_ Hhi]; [lia|done|done|].
    fold k in Hhi.
    assert (Hoff : tail_offset tl' a t = 0).
    { unfold tail_offset. simpl. rewrite sub64_exact by lia.
      apply N.div_small. lia. }
    assert (Htarget : tail_target tl' a t = vsize (data tl)).
    { unfold tail_target. rewrite Hoff. simpl.
      rewrite add64_exact by lia. lia. }
    exists a. rewrite Htarget. simpl.
    rewrite last_snoc, vsize_app. change (vsize [_]) with 1.
    repeat split; done || lia.
Qed.

(** [diff] at work on two samples. *)
Lemma diff_samples tl a b hint ar br :
  0 < resolution tl → a ≤ b → b < u64_modulus → data tl ≠ [] →
  get tl a hint = Some ar → get tl b hint = Some br →
  query_time ar = a → query_time br = b → range_time br ≤ b →
  g_index_offset ar ≤ g_index_offset br →
  0 < (b - a) / resolution tl →
  diff tl a b hint
  = Some (mk_diff_result a b (resolution tl) (g_index_offset ar)
            (sub64 (integral (g_value br)) (integral (g_value ar)))
            (to_double (sub64 (integral (g_value br)) (integral (g_value ar)))
             / to_double ((b - a) / resolution tl))%float
            (to_double (sub64 (second_integral (g_value br))
                          (second_integral (g_value ar)))
             / to_double ((b - a) / resolution tl)
             - to_double (sub64 (integral (g_value br))
                            (integral (g_value ar)))
               / to_double ((b - a) / resolution tl)
               * (to_double (sub64 (integral (g_value br))
                               (integral (g_value ar)))
                  / to_double ((b - a) / resolution tl)))%float
            ((b - a) / resolution tl) (g_value ar) (g_value br)).
Proof.
  intros Hres Hab Hb Hdata Har Hbr Hqa Hqb Hrb Hio Hn. unfold diff.
  rewrite (check_true (0 <? resolution tl)) by (by apply N.ltb_lt). simpl.
  assert (E : (b <? a) = false) by (apply N.ltb_ge; lia). rewrite E.
  assert (E0 : (vsize (data tl) =? 0) = false).
  { apply N.eqb_neq. unfold vsize. destruct (data tl); [done|simpl; lia]. }
  rewrite E0, Har, Hbr. simpl. rewrite Hqa, Hqb.
  rewrite N.max_l, N.min_l by lia.
  rewrite sub64_exact by lia.
  set (n := (b - a) / resolution tl) in *.
  assert (En : (n =? 0) = false) by (apply N.eqb_neq; lia). rewrite En.
  rewrite (check_true (0 <? n)) by (by apply N.ltb_lt). simpl.
  rewrite (check_true (_ <=? _)) by (by apply N.leb_le). simpl.
  unfold diff_buckets.
  rewrite (check_true (0 <? resolution tl)) by (by apply N.ltb_lt). simpl.
  by rewrite (check_true (0 <? n)) by (by apply N.ltb_lt).
Qed.

(** C6, as amended: after a put [(t, c)] that returns true on a reachable
    timeline, [diff(t, t + resolution)] returns with [n = 1], its lower
    sample is the bucket that contains [t], and its sum is the value of the
    bucket that follows that one, 0 when there is none: the count [c] is
    not part of the sum, which is 0 after every put that appends. *)
Theorem diff_after_put res tl t c tl' hint :
  reachable res tl →
  t < u64_modulus → c < u64_modulus → t + res < u64_modulus →
  put tl t c = Some (true, tl') → vsize (data tl') < u64_modulus →
  ∃ g r,
    get tl' t hint = Some g
    ∧ at_pos (data tl') (add64 (g_pos g) (g_offset g)) = Some (g_value g)
    ∧ diff tl' t (t + res) hint = Some r
    ∧ dr_n r = 1 ∧ dr_a r = g_value g
    ∧ dr_sum r
      = match at_pos (data tl') (add64 (g_pos g) (g_offset g) + 1) with
        | Some next => value next
        | None => 0
        end
    ∧ (length (data tl') ≠ length (data tl) → dr_sum r = 0).
Proof.
  intros Hr Ht Hc Htr Hput Hsize'.
  assert (Hr' : reachable res tl') by (by apply (reach_put res tl t c)).
  pose proof (reachable_wf _ _ Hr) as Hwf.
  pose proof (reachable_wf _ _ Hr') as Hwf'.
  pose proof (reachable_resolution _ _ Hr') as Hres'.
  pose proof (wf_res _ Hwf') as Hres. rewrite <- Hres' in *.
  apply put_inv in Hput as Hcase; [|done|done].
  destruct (put_lands _ _ _ _ Hwf Ht Hcase) as (lr & Hlast & Hle & HP & Happ).
  destruct (head (index tl')) as [a0|] eqn:Hhead;
    [|apply head_None in Hhead; by rewrite Hhead in Hlast].
  destruct (at_pos_is_Some _ _ HP) as [dP HdP].
  pose proof (get_tail_inside tl' a0 lr t hint dP Hwf' Hhead Hlast Hle HdP)
    as Hga.
  assert (Hnext : tail_target tl' lr (t + resolution tl')
                  = tail_target tl' lr t + 1).
  { unfold tail_target. rewrite tail_offset_next, add64_succ by (done || lia).
    apply add64_exact. fold (tail_target tl' lr t). lia. }
  assert (Hdata : data tl' ≠ []).
  { intros E. rewrite E in HP. by apply N.nlt_0_r in HP. }
  assert (Hone : (t + resolution tl' - t) / resolution tl' = 1).
  { replace (t + resolution tl' - t) with (resolution tl') by lia.
    apply N.div_same. lia. }
  set (P := tail_target tl' lr t) in *.
  destruct (N.lt_ge_cases (P + 1) (vsize (data tl'))) as [Hin | Hout].
  - destruct (at_pos_is_Some _ _ Hin) as [dn Hdn].
    assert (Hgb : get tl' (t + resolution tl') hint
                  = Some (mk_get_result (N.of_nat (length (index tl') - 1))
                            (t + resolution tl') (time lr) (pos lr)
                            (tail_offset tl' lr (t + resolution tl')) dn)).
    { apply (get_tail_inside tl' a0); try done; [lia|]. by rewrite Hnext. }
    eexists _, _. split; [exact Hga|]. simpl. split; [done|].
    rewrite (diff_samples tl' t (t + resolution tl') hint _ _ (proj1 Hres)
               ltac:(lia) Htr Hdata Hga Hgb); simpl; try done; try lia.
    repeat split; try done.
    + fold (tail_target tl' lr t). fold P. rewrite Hdn.
      assert (Hstep : dn = propogate dP dn).
      { apply (cumulative_step (data tl') zero_item (N.to_nat P));
          [apply (wf_cumulative _ Hwf')|done|].
        unfold at_pos in Hdn. by replace (S (N.to_nat P))
                                   with (N.to_nat (P + 1)) by lia. }
      apply propogate_fix in Hstep as [-> _].
      apply sub64_add64.
      pose proof (wf_data _ Hwf') as Hrange.
      rewrite Forall_lookup in Hrange. by destruct (Hrange _ _ Hdn).
    + intros Hlen. apply Happ in Hlen. lia.
  - assert (Hlastd : last (data tl') = Some dP).
    { rewrite last_lookup. unfold at_pos in HdP. rewrite <- HdP. f_equal.
      unfold vsize in *. lia. }
    assert (Hgb : get tl' (t + resolution tl') hint
                  = Some (mk_get_result (N.of_nat (length (index tl') - 1))
                            (t + resolution tl') (time lr) (pos lr)
                            (vsize (data tl') - pos lr - 1) dP)).
    { apply (get_tail_clamped tl' a0); try done; [lia|]. by rewrite Hnext. }
    eexists _, _. split; [exact Hga|]. simpl. split; [done|].
    rewrite (diff_samples tl' t (t + resolution tl') hint _ _ (proj1 Hres)
               ltac:(lia) Htr Hdata Hga Hgb); simpl; try done; try lia.
    repeat split; try done.
    + fold (tail_target tl' lr t). fold P.
      rewrite sub64_diag. unfold at_pos.
      by rewrite lookup_ge_None_2 by (unfold vsize in *; lia).
    + intros _. apply sub64_diag.
Qed.

Lemma diff_after_put_witness :
  ∃ g r,
    get (mk_timeline [mk_index_item 100 0] [mk_data_item 5 5 25] 10) 100 0
    = Some g
    ∧ at_pos (data (mk_timeline [mk_index_item 100 0]
                      [mk_data_item 5 5 25] 10))
        (add64 (g_pos g) (g_offset g)) = Some (g_value g)
    ∧ diff (mk_timeline [mk_index_item 100 0] [mk_data_item 5 5 25] 10)
        100 (100 + 10) 0 = Some r
    ∧ dr_n r = 1 ∧ dr_a r = g_value g
    ∧ dr_sum r
      = match at_pos (data (mk_timeline [mk_index_item 100 0]
                              [mk_data_item 5 5 25] 10))
                (add64 (g_pos g) (g_offset g) + 1) with
        | Some next => value next
        | None => 0
        end
    ∧ (length (data (mk_timeline [mk_index_item 100 0]
                       [mk_data_item 5 5 25] 10))
       ≠ length (data (empty_timeline 10)) → dr_sum r = 0).
Proof.
  apply (diff_after_put 10 (empty_timeline 10) 100 5); try done.
  by apply reach_empty.
Defined.

(** C6 fails as stated: at resolution 10, after [put(100, 5)] on an empty
    timeline, a put that is accepted and the only one in its bucket,
    [diff(100, 110)] returns the sum 0, which is below the count 5. *)
Lemma diff_after_first_put_is_zero :
  ∃ tl, put (empty_timeline 10) 100 5 = Some (true, tl)
        ∧ (dr_sum <$> diff tl 100 (100 + 10) 0) = Some 0
        ∧ (dr_n <$> diff tl 100 (100 + 10) 0) = Some 1
        ∧ 0 < 5.
Proof.
  exists (mk_timeline [mk_index_item 100 0] [mk_data_item 5 5 25] 10).
  repeat split; vm_compute; reflexivity.
Qed.

(** ** [clamp] *)

Lemma clamp_spec r size :
  size < u64_modulus →
  (size ≤ p_pos r → clamp r size = None)
  ∧ (p_pos r < size →
     ∃ r', clamp r size = Some r'
           ∧ add64 (p_pos r') (p_offset r') < size
           ∧ p_index_offset r' = p_index_offset r
           ∧ p_time r' = p_time r ∧ p_pos r' = p_pos r
           ∧ (add64 (p_pos r) (p_offset r) < size → r' = r)
           ∧ (size ≤ add64 (p_pos r) (p_offset r) →
              add64 (p_pos r') (p_offset r') = size - 1)).
Proof.
  intros Hsize. unfold clamp. split.
  - intros Hge. assert (E : (p_pos r <? size) = false) by (by apply N.ltb_ge).
    by rewrite E.
  - intros Hlt. rewrite (check_true (p_pos r <? size)) by (by apply N.ltb_lt).
    simpl.
    destruct (add64 (p_pos r) (p_offset r) <? size) eqn:E.
    + apply N.ltb_lt in E. exists r. repeat split; try done. lia.
    + apply N.ltb_ge in E.
      rewrite (sub64_exact size (p_pos r)) by lia.
      rewrite (sub64_exact (size - p_pos r) 1) by lia.
      rewrite (add64_exact (p_pos r)) by lia.
      replace (p_pos r + (size - p_pos r - 1)) with (size - 1) by lia.
      rewrite (check_true (_ && _))
        by (apply andb_true_iff; split; apply N.leb_le; lia).
      simpl. eexists. split; [done|]. simpl.
      rewrite (add64_exact (p_pos r)) by lia.
      repeat split; try done; lia.
Qed.

(** X1: for a size that fits 64 bits, [clamp] aborts exactly when the anchor
    position is not below the size; otherwise it returns a result that
    addresses an existing bucket, with the anchor untouched: the argument
    itself when it is in range, and the last bucket when it is beyond. *)
Theorem clamp_lands_inside r size :
  size < u64_modulus →
  (size ≤ p_pos r → clamp r size = None)
  ∧ (p_pos r < size →
     ∃ r', clamp r size = Some r'
           ∧ add64 (p_pos r') (p_offset r') < size
           ∧ p_index_offset r' = p_index_offset r
           ∧ p_time r' = p_time r ∧ p_pos r' = p_pos r
           ∧ (add64 (p_pos r) (p_offset r) < size → r' = r)
           ∧ (size ≤ add64 (p_pos r) (p_offset r) →
              add64 (p_pos r') (p_offset r') = size - 1)).
Proof. apply clamp_spec. Qed.

Lemma clamp_lands_inside_witness :
  (3 ≤ p_pos (mk_pos_result 0 100 0 7)
   → clamp (mk_pos_result 0 100 0 7) 3 = None)
  ∧ (p_pos (mk_pos_result 0 100 0 7) < 3 →
     ∃ r', clamp (mk_pos_result 0 100 0 7) 3 = Some r'
           ∧ add64 (p_pos r') (p_offset r') < 3
           ∧ p_index_offset r' = p_index_offset (mk_pos_result 0 100 0 7)
           ∧ p_time r' = p_time (mk_pos_result 0 100 0 7)
           ∧ p_pos r' = p_pos (mk_pos_result 0 100 0 7)
           ∧ (add64 (p_pos (mk_pos_result 0 100 0 7))
                (p_offset (mk_pos_result 0 100 0 7)) < 3
              → r' = mk_pos_result 0 100 0 7)
           ∧ (3 ≤ add64 (p_pos (mk_pos_result 0 100 0 7))
                     (p_offset (mk_pos_result 0 100 0 7))
              → add64 (p_pos r') (p_offset r') = 3 - 1)).
Proof. apply (clamp_lands_inside (mk_pos_result 0 100 0 7) 3). reflexivity. Defined.

(** ** The order of the arguments of [diff] *)

Lemma diff_sym tl a b hint : diff tl a b hint = diff tl b a hint.
Proof.
  unfold diff. destruct (check (0 <? resolution tl)); simpl; [|done].
  destruct (b <? a) eqn:Eba, (a <? b) eqn:Eab; try done.
  - apply N.ltb_lt in Eba, Eab. lia.
  - apply N.ltb_ge in Eba, Eab. by replace b with a by lia.
Qed.

(** X2: [diff] orders its two times itself, whatever the timeline: swapping
    the arguments changes nothing, aborts included. *)
Theorem diff_swap tl a b hint : diff tl a b hint = diff tl b a hint.
Proof. apply diff_sym. Qed.

(** ** The order and the spacing of the anchors *)

Lemma put_case_increasing tl t c tl' :
  wf tl → t < u64_modulus → put_case tl t c true tl' →
  anchors_increasing (index tl) → anchors_increasing (index tl').
Proof.
  intros Hwf Ht Hcase Hinc.
  inversion Hcase as
    [Hidx Hdat | | | | | lr prev Hlast Hle Hbeyond Hprev Hk Hlo];
    subst; simpl; try done.
  - intros i j a b Hij Ha Hb. destruct j; [lia|done].
  - destruct (wf_anchor _ Hwf lr (last_elem_of _ _ Hlast)) as [Hpos _].
    pose proof (wf_res _ Hwf) as Hres.
    rewrite last_lookup in Hlast.
    intros i j a b Hij Ha Hb.
    assert (Hj : (j < length (index tl ++ [b]))%nat).
    { apply lookup_lt_Some in Hb. by rewrite length_app in *. }
    rewrite length_app in Hj. simpl in Hj.
    destruct (decide (j = length (index tl))) as [-> | Hne].
    + rewrite lookup_app_l in Ha by done.
      rewrite (list_lookup_middle (index tl) [] _ (length (index tl))) in Hb
        by done.
      injection Hb as <-. simpl.
      assert (Hbefore : time a ≤ time lr ∧ pos a ≤ pos lr).
      { destruct (decide (i = Init.Nat.pred (length (index tl)))) as [-> | Hi].
        - rewrite Hlast in Ha. injection Ha as ->. lia.
        - destruct (Hinc i (Init.Nat.pred (length (index tl))) a lr);
            [lia|done|done|lia]. }
      nia.
    + rewrite lookup_app_l in Ha, Hb by lia. by apply (Hinc i j).
Qed.

Lemma put_case_spaced tl t c tl' :
  wf tl → t < u64_modulus → put_case tl t c true tl' →
  anchors_spaced tl → anchors_spaced tl'.
Proof.
  intros Hwf Ht Hcase Hsp.
  inversion Hcase as
    [Hidx Hdat | | | | | lr prev Hlast Hle Hbeyond Hprev Hk Hlo];
    subst; unfold anchors_spaced; simpl; try done.
  - intros a0 a [= <-] Ha. apply list_elem_of_singleton in Ha as ->.
    simpl. lia.
  - intros a0 a Hhead Ha.
    assert (Hhead' : head (index tl) = Some a0).
    { destruct (index tl); [done | by simpl in *]. }
    apply elem_of_app in Ha as [Ha | Ha]; [by apply Hsp|].
    apply list_elem_of_singleton in Ha as ->. simpl.
    pose proof (Hsp a0 lr Hhead' (last_elem_of _ _ Hlast)) as Hlr.
    unfold tail_target in Hbeyond.
    pose proof (wrap_le (pos lr + tail_offset tl lr t)) as Hw.
    unfold add64 in Hbeyond. nia.
Qed.

Lemma put_case_first_pos tl t c tl' :
  put_case tl t c true tl' →
  (∀ a0, head (index tl) = Some a0 → pos a0 = 0) →
  ∀ a0, head (index tl') = Some a0 → pos a0 = 0.
Proof.
  intros Hcase Hfirst.
  inversion Hcase as
    [Hidx Hdat | | | | | lr prev Hlast Hle Hbeyond Hprev Hk Hlo];
    subst; simpl; try done.
  - by intros a0 [= <-].
  - intros a0 Hhead. apply Hfirst.
    destruct (index tl); [done | by simpl in *].
Qed.

Lemma reachable_anchors res tl :
  reachable res tl →
  anchors_increasing (index tl) ∧ anchors_spaced tl
  ∧ (∀ a0, head (index tl) = Some a0 → pos a0 = 0).
Proof.
  induction 1 as [| tl t c tl' Hr (Hinc & Hsp & Hfirst) Ht Hc Hput Hsize].
  - repeat split; done.
  - pose proof (reachable_wf _ _ Hr) as Hwf.
    apply put_inv in Hput; [|done|done].
    split; [by apply (put_case_increasing tl t c)|].
    split; [by apply (put_case_spaced tl t c)|].
    by apply (put_case_first_pos tl t c).
Qed.

(** X3: in every timeline reached by accepted puts, later anchors have
    strictly later times and strictly later positions, the first anchor is
    at position 0, and an anchor at position [pos] is at least [pos]
    resolutions after the first anchor. *)
Theorem anchors_ordered res tl :
  reachable res tl →
  (∀ i j a b, (i < j)%nat → index tl !! i = Some a → index tl !! j = Some b →
              time a < time b ∧ pos a < pos b)
  ∧ (∀ a0 a, head (index tl) = Some a0 → a ∈ index tl →
             pos a0 = 0 ∧ time a0 + pos a * res ≤ time a).
Proof.
  intros Hr. destruct (reachable_anchors _ _ Hr) as (Hinc & Hsp & Hfirst).
  split; [exact Hinc|]. intros a0 a Hhead Ha.
  rewrite <- (reachable_resolution _ _ Hr). split; [by apply Hfirst|].
  by apply Hsp.
Qed.

Lemma anchors_ordered_witness :
  (∀ i j a b, (i < j)%nat →
     index (mk_timeline [mk_index_item 105 0; mk_index_item 195 1]
              [mk_data_item 5 5 25; mk_data_item 7 12 74] 10) !! i = Some a →
     index (mk_timeline [mk_index_item 105 0; mk_index_item 195 1]
              [mk_data_item 5 5 25; mk_data_item 7 12 74] 10) !! j = Some b →
     time a < time b ∧ pos a < pos b)
  ∧ (∀ a0 a,
       head (index (mk_timeline [mk_index_item 105 0; mk_index_item 195 1]
                      [mk_data_item 5 5 25; mk_data_item 7 12 74] 10))
       = Some a0 →
       a ∈ index (mk_timeline [mk_index_item 105 0; mk_index_item 195 1]
                    [mk_data_item 5 5 25; mk_data_item 7 12 74] 10) →
       pos a0 = 0 ∧ time a0 + pos a * 10 ≤ time a).
Proof.
  apply (anchors_ordered 10).
  apply (reach_put 10 (mk_timeline [mk_index_item 105 0]
                         [mk_data_item 5 5 25] 10) 200 7); try done.
  apply (reach_put 10 (empty_timeline 10) 105 5); try done.
  by apply reach_empty.
Defined.

(** ** The counts that were put *)

Lemma history_reachable res cs tl : history res cs tl → reachable res tl.
Proof.
  induction 1 as [| cs tl t c tl' _ IH Ht Hc Hput Hsize].
  - by apply reach_empty.
  - by apply (reach_put res tl t c).
Qed.

Lemma sum_values_app l1 l2 :
  sum_values (l1 ++ l2) = sum_values l1 + sum_values l2.
Proof. induction l1 as [|d l1 IH]; simpl; [done|]. rewrite IH. lia. Qed.

Lemma repropogate_values prev l :
  map value (repropogate prev l) = map value l.
Proof.
  revert prev. induction l as [|d l IH]; intros prev; simpl; f_equal; auto.
Qed.

Lemma sum_values_map l : sum_values l = foldr N.add 0 (map value l).
Proof. induction l as [|d l IH]; simpl; [done|]. by rewrite IH. Qed.

Lemma sum_values_repropogate prev l :
  sum_values (repropogate prev l) = sum_values l.
Proof. by rewrite !sum_values_map, repropogate_values. Qed.

Lemma wrap_add_wrap a x b : wrap (a + (wrap x + b)) = wrap (a + (x + b)).
Proof.
  replace (a + (wrap x + b)) with (wrap x + (a + b)) by lia.
  replace (a + (x + b)) with (x + (a + b)) by lia.
  apply add64_wrap_l.
Qed.

(** An accepted put adds its count to the sum of the values, modulo 2^64. *)
Lemma put_case_total tl t c tl' :
  put_case tl t c true tl' →
  wrap (sum_values (data tl')) = wrap (sum_values (data tl) + c).
Proof.
  intros Hcase.
  inversion Hcase as
    [Hidx Hdat | | | lr current Hlast Hle Hexists Hback Hcur
    | lr prev Hlast Hle Hadj Hprev
    | lr prev Hlast Hle Hbeyond Hprev Hk Hlo]; subst; simpl.
  - rewrite Hdat. simpl. f_equal. lia.
  - set (n := N.to_nat (tail_target tl lr t)) in *.
    assert (Hsplit : data tl = take n (data tl) ++ current :: drop (S n) (data tl)).
    { symmetry. by apply take_drop_middle. }
    assert (Hsum : sum_values (data tl)
                   = sum_values (take n (data tl))
                     + (value current + sum_values (drop (S n) (data tl)))).
    { rewrite Hsplit at 1. by rewrite sum_values_app. }
    rewrite sum_values_app. simpl.
    rewrite sum_values_repropogate, Hsum.
    fold (add64 (value current) c). unfold add64 at 1.
    rewrite wrap_add_wrap. f_equal. lia.
  - rewrite sum_values_app. simpl. f_equal. lia.
  - rewrite sum_values_app. simpl. f_equal. lia.
Qed.

Lemma history_total res cs tl :
  history res cs tl → wrap (sum_values (data tl)) = wrap (total cs).
Proof.
  induction 1 as [| cs tl t c tl' Hh IH Ht Hc Hput Hsize]; [done|].
  apply put_inv in Hput;
    [|by apply (reachable_wf res), (history_reachable res cs)|done].
  rewrite (put_case_total _ _ _ _ Hput). simpl.
  rewrite N.add_comm. fold (add64 c (sum_values (data tl))).
  rewrite <- add64_wrap_r, IH. by rewrite add64_wrap_r.
Qed.

(** X4: no count is lost or invented. After accepted puts with the counts
    [cs], the values of all buckets add up to the sum of [cs] modulo 2^64,
    and the [integral] of the last bucket is that sum modulo 2^64. *)
Theorem counts_are_conserved res cs tl :
  history res cs tl →
  wrap (sum_values (data tl)) = wrap (total cs)
  ∧ (∀ d, last (data tl) = Some d → integral d = wrap (total cs)).
Proof.
  intros Hh. pose proof (history_total _ _ _ Hh) as Htotal.
  split; [done|]. intros d Hd.
  apply history_reachable, reachable_wf in Hh.
  rewrite last_lookup in Hd.
  destruct (cumulative_prefix_sums _ _ _ _ (wf_cumulative _ Hh) Hd) as [-> _].
  rewrite firstn_all2 by lia. simpl. fold (wrap (sum_values (data tl))).
  done.
Qed.

Lemma counts_are_conserved_witness :
  wrap (sum_values
          (data (mk_timeline [mk_index_item 100 0]
                   [mk_data_item 7 7 49; mk_data_item 3 10 58] 10)))
  = wrap (total [2; 3; 5])
  ∧ (∀ d, last (data (mk_timeline [mk_index_item 100 0]
                        [mk_data_item 7 7 49; mk_data_item 3 10 58] 10))
          = Some d → integral d = wrap (total [2; 3; 5])).
Proof.
  apply (counts_are_conserved 10).
  apply (hist_put 10 [3; 5]
           (mk_timeline [mk_index_item 100 0]
              [mk_data_item 5 5 25; mk_data_item 3 8 34] 10) 100 2);
    try done.
  apply (hist_put 10 [5]
           (mk_timeline [mk_index_item 100 0] [mk_data_item 5 5 25] 10)
           110 3); try done.
  apply (hist_put 10 [] (empty_timeline 10) 100 5); try done.
  by apply hist_empty.
Defined.

(** ** What an accepted put changes *)

(** X5: an accepted put on a reachable timeline keeps the resolution and
    every anchor there is, and either appends one bucket whose value is [c],
    or leaves the index as it is and adds [c] to the value of one bucket less
    than 60 behind the size, the buckets before it and the values of the
    buckets behind it staying as they are. *)
Theorem put_changes_one_value res tl t c tl' :
  reachable res tl → t < u64_modulus →
  put tl t c = Some (true, tl') →
  resolution tl' = resolution tl
  ∧ index tl `prefix_of` index tl'
  ∧ ((∃ d, data tl' = data tl ++ [d] ∧ value d = c)
     ∨ (∃ (p : nat) current,
          index tl' = index tl
          ∧ data tl !! p = Some current
          ∧ (length (data tl) - p < 60)%nat
          ∧ take p (data tl') = take p (data tl)
          ∧ map value (data tl')
            = <[p := add64 (value current) c]> (map value (data tl)))).
Proof.
  intros Hr Ht Hput. apply reachable_wf in Hr as Hwf.
  apply put_inv in Hput; [|done|done].
  inversion Hput as
    [Hidx Hdat | | | lr current Hlast Hle Hexists Hback Hcur
    | lr prev Hlast Hle Hadj Hprev
    | lr prev Hlast Hle Hbeyond Hprev Hk Hlo]; subst; simpl.
  - rewrite Hidx, Hdat. repeat split; [apply prefix_nil|]. left. by eexists.
  - split; [done|]. split; [done|]. right.
    set (n := N.to_nat (tail_target tl lr t)) in *.
    assert (Hn : (n < length (data tl))%nat) by (unfold vsize in Hexists; lia).
    exists n, current. split; [done|]. split; [done|].
    split; [unfold ADD_BUCKET_BACK_LIMIT, vsize in Hback; lia|].
    split.
    + rewrite take_app_length'; [done|]. rewrite length_take. lia.
    + rewrite fmap_app. simpl. rewrite repropogate_values.
      rewrite <- (take_drop_middle (data tl) n current) at 3 by done.
      rewrite fmap_app. simpl.
      rewrite (insert_app_r_alt (value <$> take n (data tl)))
        by (rewrite length_fmap, length_take; lia).
      rewrite length_fmap, length_take.
      by replace (n - n `min` length (data tl))%nat with 0%nat by lia.
  - split; [done|]. split; [done|]. left. by eexists.
  - split; [done|]. split; [by apply prefix_app_r|]. left. by eexists.
Qed.

Lemma put_changes_one_value_witness :
  resolution (mk_timeline [mk_index_item 100 0]
                [mk_data_item 7 7 49; mk_data_item 3 10 58] 10)
  = resolution (mk_timeline [mk_index_item 100 0]
                  [mk_data_item 5 5 25; mk_data_item 3 8 34] 10)
  ∧ index (mk_timeline [mk_index_item 100 0]
             [mk_data_item 5 5 25; mk_data_item 3 8 34] 10)
    `prefix_of` index (mk_timeline [mk_index_item 100 0]
                         [mk_data_item 7 7 49; mk_data_item 3 10 58] 10)
  ∧ ((∃ d, data (mk_timeline [mk_index_item 100 0]
                   [mk_data_item 7 7 49; mk_data_item 3 10 58] 10)
           = data (mk_timeline [mk_index_item 100 0]
                     [mk_data_item 5 5 25; mk_data_item 3 8 34] 10) ++ [d]
           ∧ value d = 2)
     ∨ (∃ (p : nat) current,
          index (mk_timeline [mk_index_item 100 0]
                   [mk_data_item 7 7 49; mk_data_item 3 10 58] 10)
          = index (mk_timeline [mk_index_item 100 0]
                     [mk_data_item 5 5 25; mk_data_item 3 8 34] 10)
          ∧ data (mk_timeline [mk_index_item 100 0]
                    [mk_data_item 5 5 25; mk_data_item 3 8 34] 10) !! p
            = Some current
          ∧ (length (data (mk_timeline [mk_index_item 100 0]
                             [mk_data_item 5 5 25; mk_data_item 3 8 34] 10))
             - p < 60)%nat
          ∧ take p (data (mk_timeline [mk_index_item 100 0]
                            [mk_data_item 7 7 49; mk_data_item 3 10 58] 10))
            = take p (data (mk_timeline [mk_index_item 100 0]
                              [mk_data_item 5 5 25; mk_data_item 3 8 34] 10))
          ∧ map value (data (mk_timeline [mk_index_item 100 0]
                               [mk_data_item 7 7 49; mk_data_item 3 10 58]
                               10))
            = <[p := add64 (value current) 2]>
                (map value (data (mk_timeline [mk_index_item 100 0]
                                    [mk_data_item 5 5 25; mk_data_item 3 8 34]
                                    10))))).
Proof.
  apply (put_changes_one_value 10 _ 100 2); try done.
  apply (reach_put 10 (mk_timeline [mk_index_item 100 0]
                         [mk_data_item 5 5 25] 10) 110 3); try done.
  apply (reach_put 10 (empty_timeline 10) 100 5); try done.
  by apply reach_empty.
Defined.

(** ** [summary] *)

(** X6: on a non-empty reachable timeline whose end time
    [back.time + (data.size() - back.pos) * resolution] fits 64 bits,
    [summary] returns: it spans from the time of the first anchor to that
    end time, its sum is the [integral] of the last bucket, and its [n]
    counts at least every stored bucket. *)
Theorem summary_of_reachable res tl a0 lr d :
  reachable res tl →
  head (index tl) = Some a0 → last (index tl) = Some lr →
  last (data tl) = Some d →
  time lr + (vsize (data tl) - pos lr) * res < u64_modulus →
  ∃ r, summary tl = Some r
       ∧ sr_from r = time a0
       ∧ sr_to r = time lr + (vsize (data tl) - pos lr) * res
       ∧ sr_resolution r = res
       ∧ sr_sum r = integral d
       ∧ sr_n r = (sr_to r - sr_from r) / res
       ∧ vsize (data tl) ≤ sr_n r.
Proof.
  intros Hr Hhead Hlast Hd Hto.
  pose proof (reachable_wf _ _ Hr) as Hwf.
  destruct (reachable_anchors _ _ Hr) as (_ & Hsp & _).
  pose proof (Hsp a0 lr Hhead (last_elem_of _ _ Hlast)) as Hspaced.
  rewrite <- (reachable_resolution _ _ Hr) in *.
  pose proof (wf_res _ Hwf) as Hres. pose proof (wf_size _ Hwf) as Hsize.
  destruct (wf_anchor _ Hwf lr (last_elem_of _ _ Hlast)) as [Hpos _].
  pose proof (wf_data _ Hwf) as Hrange.
  rewrite Forall_lookup in Hrange. rewrite last_lookup in Hd.
  destruct (Hrange _ _ Hd) as (_ & Hint & _).
  rewrite <- last_lookup in Hd.
  set (m := vsize (data tl) - pos lr) in *.
  set (s := resolution tl) in *.
  assert (Hn : vsize (data tl) ≤ (time lr + m * s - time a0) / s).
  { apply N.div_le_lower_bound; [lia|]. unfold m. nia. }
  unfold summary. fold s.
  rewrite (check_true (0 <? s)) by (apply N.ltb_lt; lia). simpl.
  rewrite Hhead, Hlast.
  rewrite (check_true (negb _))
    by (apply negb_true_iff, N.eqb_neq; lia). simpl.
  rewrite (check_true (pos lr <? _)) by (by apply N.ltb_lt). simpl.
  rewrite (sub64_exact (vsize (data tl))) by lia. fold m.
  rewrite mul64_exact, add64_exact by nia.
  rewrite (check_true (time a0 <? _)) by (apply N.ltb_lt; nia). simpl.
  rewrite Hd. simpl.
  rewrite (sub64_exact (time lr + m * s)) by nia.
  unfold diff_buckets.
  rewrite (check_true (0 <? s)) by (apply N.ltb_lt; lia). simpl.
  rewrite (check_true (0 <? _)) by (apply N.ltb_lt; lia). simpl.
  eexists. split; [done|]. simpl.
  rewrite (sub64_exact (integral d)) by lia.
  repeat split; try done. lia.
Qed.

Lemma summary_of_reachable_witness :
  ∃ r, summary (mk_timeline [mk_index_item 105 0; mk_index_item 195 1]
                  [mk_data_item 5 5 25; mk_data_item 7 12 74] 10) = Some r
       ∧ sr_from r = time (mk_index_item 105 0)
       ∧ sr_to r
         = time (mk_index_item 195 1)
           + (vsize (data (mk_timeline
                             [mk_index_item 105 0; mk_index_item 195 1]
                             [mk_data_item 5 5 25; mk_data_item 7 12 74] 10))
              - pos (mk_index_item 195 1)) * 10
       ∧ sr_resolution r = 10
       ∧ sr_sum r = integral (mk_data_item 7 12 74)
       ∧ sr_n r = (sr_to r - sr_from r) / 10
       ∧ vsize (data (mk_timeline
                        [mk_index_item 105 0; mk_index_item 195 1]
                        [mk_data_item 5 5 25; mk_data_item 7 12 74] 10))
         ≤ sr_n r.
Proof.
  apply (summary_of_reachable 10); try done.
  apply (reach_put 10 (mk_timeline [mk_index_item 105 0]
                         [mk_data_item 5 5 25] 10) 200 7); try done.
  apply (reach_put 10 (empty_timeline 10) 105 5); try done.
  by apply reach_empty.
Defined.

(** ** Puts in the order of time *)

(** On a reachable timeline the position [put] computes does not wrap. *)
Lemma tail_target_exact res tl lr t :
  reachable res tl → last (index tl) = Some lr →
  time lr ≤ t → t < u64_modulus →
  tail_target tl lr t = pos lr + tail_offset tl lr t.
Proof.
  intros Hr Hlast Hle Ht. pose proof (reachable_wf _ _ Hr) as Hwf.
  destruct (reachable_anchors _ _ Hr) as (_ & Hsp & _).
  pose proof (wf_res _ Hwf) as Hres.
  destruct (head (index tl)) as [a0|] eqn:Hhead;
    [|apply head_None in Hhead; by rewrite Hhead in Hlast].
  pose proof (Hsp a0 lr Hhead (last_elem_of _ _ Hlast)) as Hspaced.
  destruct (tail_offset_bound tl lr t) as [Hlo _]; [lia|done|done|].
  apply add64_exact. nia.
Qed.

Lemma tail_offset_mono tl lr t t' :
  time lr ≤ t → t ≤ t' → t' < u64_modulus →
  tail_offset tl lr t ≤ tail_offset tl lr t'.
Proof.
  intros Hle Htt Ht'. unfold tail_offset. rewrite !sub64_exact by lia.
  destruct (N.eq_dec (resolution tl) 0) as [-> | Hres].
  - by rewrite !N.div_0_r.
  - apply N.Div0.div_le_mono. lia.
Qed.

(** The bucket an accepted put lands in is inside the backfill window. *)
Lemma put_lands_recent tl t c tl' lr' :
  wf tl → t < u64_modulus → put_case tl t c true tl' →
  last (index tl') = Some lr' →
  vsize (data tl') - tail_target tl' lr' t < ADD_BUCKET_BACK_LIMIT.
Proof.
  intros Hwf Ht Hcase Hlast'.
  destruct (put_lands _ _ _ _ Hwf Ht Hcase) as (lr & Hlr & _ & HP & Happ).
  rewrite Hlast' in Hlr. injection Hlr as <-.
  destruct (decide (length (data tl') = length (data tl))) as [Hsame | Hnew].
  - inversion Hcase as
      [Hidx Hdat | | | lr current Hlast Hle Hexists Hback Hcur
      | lr prev Hlast Hle Hadj Hprev
      | lr prev Hlast Hle Hbeyond Hprev Hk Hlo]; subst; simpl in *.
    + by rewrite Hdat in Hsame.
    + rewrite Hlast in Hlast'. injection Hlast' as ->.
      unfold vsize in *. rewrite Hsame.
      by unfold tail_target, tail_offset in *.
    + rewrite length_app in Hsame. simpl in Hsame. lia.
    + rewrite length_app in Hsame. simpl in Hsame. lia.
  - apply Happ in Hnew. unfold ADD_BUCKET_BACK_LIMIT. lia.
Qed.

(** X7: puts that arrive in the order of time are never rejected. After an
    accepted put at time [t] on a reachable timeline, a put at any time
    [t' >= t] is accepted. *)
Theorem put_in_order_is_accepted res tl t c tl' t' c' :
  reachable res tl →
  t < u64_modulus → c < u64_modulus →
  put tl t c = Some (true, tl') → vsize (data tl') < u64_modulus →
  t ≤ t' → t' < u64_modulus →
  ∃ tl'', put tl' t' c' = Some (true, tl'').
Proof.
  intros Hr Ht Hc Hput Hsize' Htt Ht'.
  assert (Hr' : reachable res tl') by (by apply (reach_put res tl t c)).
  pose proof (reachable_wf _ _ Hr) as Hwf.
  pose proof (reachable_wf _ _ Hr') as Hwf'.
  apply put_inv in Hput; [|done|done].
  destruct (put_lands _ _ _ _ Hwf Ht Hput) as (lr & Hlast & Hle & HP & _).
  pose proof (put_lands_recent _ _ _ _ _ Hwf Ht Hput Hlast) as Hrecent.
  pose proof (tail_target_exact _ _ _ _ Hr' Hlast Hle Ht) as Hexact.
  pose proof (tail_target_exact _ _ _ t' Hr' Hlast ltac:(lia) Ht') as Hexact'.
  pose proof (tail_offset_mono tl' lr t t' Hle Htt Ht') as Hmono.
  destruct (put_cases tl' t' c' Hwf' Ht') as (ok & tl'' & Hput' & Hcase').
  exists tl''. rewrite Hput'. do 2 f_equal.
  inversion Hcase' as
    [| lr' Hl' Hold | lr' Hl' Hle' Hex Hback | | |]; subst; try done;
    rewrite Hlast in Hl'; injection Hl' as <-.
  - lia.
  - unfold ADD_BUCKET_BACK_LIMIT in *. lia.
Qed.

Lemma put_in_order_is_accepted_witness :
  ∃ tl'',
    put (mk_timeline [mk_index_item 100 0] [mk_data_item 5 5 25] 10) 100 4
    = Some (true, tl'').
Proof.
  apply (put_in_order_is_accepted 10 (empty_timeline 10) 100 5); try done.
  by apply reach_empty.
Defined.

(** ** Reading at and past the end *)

Lemma get_tail_last res tl lr d t hint :
  reachable res tl →
  last (index tl) = Some lr → last (data tl) = Some d →
  time lr + (vsize (data tl) - 1 - pos lr) * res ≤ t → t < u64_modulus →
  get tl t hint
  = Some (mk_get_result (N.of_nat (length (index tl) - 1)) t (time lr)
            (pos lr) (vsize (data tl) - pos lr - 1) d).
Proof.
  intros Hr Hlast Hd Hend Ht. pose proof (reachable_wf _ _ Hr) as Hwf.
  rewrite <- (reachable_resolution _ _ Hr) in *.
  pose proof (wf_res _ Hwf) as Hres.
  destruct (wf_anchor _ Hwf lr (last_elem_of _ _ Hlast)) as [Hpos _].
  destruct (head (index tl)) as [a0|] eqn:Hhead;
    [|apply head_None in Hhead; by rewrite Hhead in Hlast].
  assert (Hle : time lr ≤ t) by lia.
  pose proof (tail_target_exact _ _ _ _ Hr Hlast Hle Ht) as Hexact.
  assert (Hk : vsize (data tl) - 1 - pos lr ≤ tail_offset tl lr t).
  { unfold tail_offset. rewrite sub64_exact by lia.
    apply N.div_le_lower_bound; [lia|]. nia. }
  destruct (N.lt_ge_cases (tail_target tl lr t) (vsize (data tl)))
    as [Hin | Hout].
  - assert (Hoff : tail_offset tl lr t = vsize (data tl) - pos lr - 1) by lia.
    rewrite <- Hoff. apply (get_tail_inside tl a0); try done.
    replace (tail_target tl lr t) with (vsize (data tl) - 1) by lia.
    by apply at_pos_last.
  - by apply (get_tail_clamped tl a0).
Qed.

(** X8: on a reachable timeline every time at or after the start of the
    last bucket reads the last bucket: [get] returns [data.back()], with the
    offset of the last bucket from the last anchor, however far past the end
    the time is. *)
Theorem get_past_the_end res tl lr d t hint :
  reachable res tl →
  last (index tl) = Some lr → last (data tl) = Some d →
  time lr + (vsize (data tl) - 1 - pos lr) * res ≤ t → t < u64_modulus →
  ∃ g, get tl t hint = Some g
       ∧ g_value g = d ∧ query_time g = t ∧ range_time g = time lr
       ∧ g_pos g + g_offset g + 1 = vsize (data tl).
Proof.
  intros Hr Hlast Hd Hend Ht.
  rewrite (get_tail_last res tl lr d) by done.
  eexists. split; [done|]. simpl. repeat split.
  apply reachable_wf in Hr.
  destruct (wf_anchor _ Hr lr (last_elem_of _ _ Hlast)) as [Hpos _]. lia.
Qed.

Lemma get_past_the_end_witness :
  ∃ g, get (mk_timeline [mk_index_item 100 0]
              [mk_data_item 5 5 25; mk_data_item 3 8 34] 10) 99999 0 = Some g
       ∧ g_value g = mk_data_item 3 8 34 ∧ query_time g = 99999
       ∧ range_time g = time (mk_index_item 100 0)
       ∧ g_pos g + g_offset g + 1
         = vsize (data (mk_timeline [mk_index_item 100 0]
                          [mk_data_item 5 5 25; mk_data_item 3 8 34] 10)).
Proof.
  apply (get_past_the_end 10); try done.
  apply (reach_put 10 (mk_timeline [mk_index_item 100 0]
                         [mk_data_item 5 5 25] 10) 110 3); try done.
  apply (reach_put 10 (empty_timeline 10) 100 5); try done.
  by apply reach_empty.
Defined.

(** X9: a difference over everything is the total. On a reachable timeline,
    for [a] before the first anchor and [b] at or after the start of the last
    bucket, at least one resolution apart, [diff(a, b)] returns with the
    [integral] of the last bucket as its sum, the zero bucket and the last
    bucket as its samples and [(b - a) / resolution] as [n]. *)
Theorem diff_over_everything res tl a0 lr d a b hint :
  reachable res tl →
  head (index tl) = Some a0 → last (index tl) = Some lr →
  last (data tl) = Some d →
  a < time a0 →
  time lr + (vsize (data tl) - 1 - pos lr) * res ≤ b → b < u64_modulus →
  a + res ≤ b →
  ∃ r, diff tl a b hint = Some r
       ∧ dr_sum r = integral d ∧ dr_n r = (b - a) / res
       ∧ dr_a r = mk_data_item 0 0 0 ∧ dr_b r = d.
Proof.
  intros Hr Hhead Hlast Hd Ha Hend Hb Hab.
  pose proof (reachable_wf _ _ Hr) as Hwf.
  pose proof (get_tail_last res tl lr d b hint Hr Hlast Hd Hend Hb) as Hgb.
  pose proof (get_before tl a0 a hint Hwf Hhead Ha) as Hga.
  rewrite <- (reachable_resolution _ _ Hr) in *.
  pose proof (wf_res _ Hwf) as Hres.
  assert (Hdata : data tl ≠ []) by (intros E; by rewrite E in Hd).
  assert (Hn : 0 < (b - a) / resolution tl)
    by (apply N.div_str_pos; lia).
  assert (Hle : time lr ≤ b) by nia.
  rewrite (diff_samples tl a b hint _ _ (proj1 Hres) ltac:(lia) Hb Hdata
             Hga Hgb); simpl; try done; try lia.
  eexists. split; [done|]. simpl. repeat split.
  pose proof (wf_data _ Hwf) as Hrange.
  rewrite Forall_lookup in Hrange. rewrite last_lookup in Hd.
  destruct (Hrange _ _ Hd) as (_ & Hint & _).
  rewrite sub64_exact by lia. lia.
Qed.

Lemma diff_over_everything_witness :
  ∃ r, diff (mk_timeline [mk_index_item 100 0]
               [mk_data_item 5 5 25; mk_data_item 3 8 34] 10) 90 130 0
       = Some r
       ∧ dr_sum r = integral (mk_data_item 3 8 34)
       ∧ dr_n r = (130 - 90) / 10
       ∧ dr_a r = mk_data_item 0 0 0 ∧ dr_b r = mk_data_item 3 8 34.
Proof.
  apply (diff_over_everything 10 _ (mk_index_item 100 0)
           (mk_index_item 100 0)); try done.
  apply (reach_put 10 (mk_timeline [mk_index_item 100 0]
                         [mk_data_item 5 5 25] 10) 110 3); try done.
  apply (reach_put 10 (empty_timeline 10) 100 5); try done.
  by apply reach_empty.
Defined.

(** ** Reads that never abort *)












(** ** Reading what was put *)

(** X12: a put is read back. After an accepted put [(t, c)] on a reachable
    timeline, [get(t)] returns a bucket at or after its anchor whose value is
    [c] added, in 64-bit arithmetic, to the value that bucket had before the
    put, 0 if the put appended it. *)
Theorem get_after_put res tl t c tl' hint :
  reachable res tl →
  t < u64_modulus → c < u64_modulus →
  put tl t c = Some (true, tl') → vsize (data tl') < u64_modulus →
  ∃ g, get tl' t hint = Some g
       ∧ range_time g ≤ t
       ∧ at_pos (data tl') (add64 (g_pos g) (g_offset g)) = Some (g_value g)
       ∧ value (g_value g)
         = add64 (match at_pos (data tl) (add64 (g_pos g) (g_offset g)) with
                  | Some old => value old
                  | None => 0
                  end) c.
Proof.
  intros Hr Ht Hc Hput Hsize'.
  assert (Hr' : reachable res tl') by (by apply (reach_put res tl t c)).
  pose proof (reachable_wf _ _ Hr) as Hwf.
  pose proof (reachable_wf _ _ Hr') as Hwf'.
  apply put_inv in Hput as Hcase; [|done|done].
  destruct (put_lands _ _ _ _ Hwf Ht Hcase) as (lr & Hlast & Hle & HP & Happ).
  destruct (head (index tl')) as [a0|] eqn:Hhead;
    [|apply head_None in Hhead; by rewrite Hhead in Hlast].
  destruct (at_pos_is_Some _ _ HP) as [dP HdP].
  rewrite (get_tail_inside tl' a0 lr t hint dP) by done.
  eexists. split; [done|]. simpl. split; [done|].
  fold (tail_target tl' lr t). split; [done|].
  set (P := tail_target tl' lr t) in *.
  destruct (decide (length (data tl') = length (data tl))) as [Hsame | Hnew].
  - inversion Hcase as
      [Hidx Hdat | | | lr0 current Hlast0 Hle0 Hexists Hback Hcur
      | lr0 prev Hlast0 Hle0 Hadj Hprev
      | lr0 prev Hlast0 Hle0 Hbeyond Hprev Hk Hlo]; subst; simpl in *.
    + by rewrite Hdat in Hsame.
    + rewrite Hlast0 in Hlast. injection Hlast as ->.
      change (tail_target (mk_timeline (index tl) _ (resolution tl)) lr t)
        with (tail_target tl lr t) in *.
      subst P. rewrite Hcur. unfold at_pos in HdP.
      rewrite (list_lookup_middle _ _ _ (N.to_nat (tail_target tl lr t)))
        in HdP.
      * by injection HdP as <-.
      * rewrite length_take. unfold vsize in Hexists. lia.
    + rewrite length_app in Hsame. simpl in Hsame. lia.
    + rewrite length_app in Hsame. simpl in Hsame. lia.
  - pose proof (Happ Hnew) as HPend.
    assert (Hlen : vsize (data tl') = vsize (data tl) + 1).
    { inversion Hcase; subst; simpl in *; try done;
        try (rewrite vsize_app; by change (vsize [_]) with 1).
      - match goal with H : data tl = [] |- _ => by rewrite H end.
      - exfalso. apply Hnew. apply update_length.
        match goal with H : tail_target tl _ t < vsize (data tl) |- _ =>
          unfold vsize in H; lia end. }
    assert (HPold : P = vsize (data tl)) by lia.
    assert (Hnone : at_pos (data tl) P = None).
    { unfold at_pos. apply lookup_ge_None_2. unfold vsize in HPold. lia. }
    rewrite Hnone. unfold add64. simpl. rewrite wrap_small by done.
    assert (Hd : data tl' !! length (data tl) = Some dP).
    { unfold at_pos in HdP. rewrite <- HdP. f_equal.
      unfold vsize in HPold. lia. }
    inversion Hcase as
      [Hidx Hdat | |
      | lr0 current Hlast0 Hle0 Hexists Hback Hcur | | ];
      subst; simpl in *;
      try (rewrite (list_lookup_middle _ [] _ (length (data tl))) in Hd
             by done; by injection Hd as <-).
    + rewrite Hdat in Hd. simpl in Hd. by injection Hd as <-.
    + exfalso. apply Hnew. apply update_length.
      unfold vsize in Hexists. lia.
Qed.

Lemma get_after_put_witness :
  ∃ g, get (mk_timeline [mk_index_item 100 0]
              [mk_data_item 7 7 49; mk_data_item 3 10 58] 10) 100 0 = Some g
       ∧ range_time g ≤ 100
       ∧ at_pos (data (mk_timeline [mk_index_item 100 0]
                         [mk_data_item 7 7 49; mk_data_item 3 10 58] 10))
           (add64 (g_pos g) (g_offset g)) = Some (g_value g)
       ∧ value (g_value g)
         = add64 (match at_pos
                          (data (mk_timeline [mk_index_item 100 0]
                                   [mk_data_item 5 5 25; mk_data_item 3 8 34]
                                   10))
                          (add64 (g_pos g) (g_offset g)) with
                  | Some old => value old
                  | None => 0
                  end) 2.
Proof.
  apply (get_after_put 10 (mk_timeline [mk_index_item 100 0]
                             [mk_data_item 5 5 25; mk_data_item 3 8 34] 10)
           100 2); try done.
  apply (reach_put 10 (mk_timeline [mk_index_item 100 0]
                         [mk_data_item 5 5 25] 10) 110 3); try done.
  apply (reach_put 10 (empty_timeline 10) 100 5); try done.
  by apply reach_empty.
Defined.
